(** * Cross-modal search: embedding aggregation and ranking ([script.js])

    A shallow embedding of the ranking core of [script.js]
    ([processSearchableItems], [findBestMatches]) together with the
    properties of its scoring, ordering and top-k selection.

    JavaScript numbers are IEEE 754 binary64 values; they are modelled by
    Rocq's primitive [float], whose operations are specified by the
    executable [spec_float] model of the Standard Library.

    The file gives the program first (Parts I and II), then the vocabulary
    of the statements and a concrete instance (Parts III and IV), then the
    facts about binary64 numbers, lists and the store that the proofs use,
    and the properties of the scorer, the ranker and the item embedder
    (Parts V to X).  Parts XI to XIV add further properties of these
    functions and cover the rest of the script: the set-up of the
    environment, [generateResultHTML] and [runDemo]. *)

From Stdlib Require Import ZArith Lia List Bool String Ascii DecimalString Floats Sorted
  Permutation PeanoNat.
Import ListNotations.

Local Open Scope Z_scope.

(** ** Part I. The program

    Values of the script: numbers are binary64 floats, a tensor carries its
    [data] array, an embedded item is the object literal built by
    [processSearchableItems], a match is the object literal [{ index,
    similarity }] built by [findBestMatches]. *)

Local Open Scope string_scope.
Local Open Scope list_scope.

Definition number := float.

Record Tensor := { data : list number }.

(** The object returned by the callback of [processSearchableItems].  A
    property that the literal does not set reads as [undefined]: [None]. *)
Record EmbeddedItem := {
  text_embed : option Tensor;
  image_embed : option Tensor;
  type : string
}.

(** An element of [item_embeds]: an item object, or [undefined] ([None]),
    which is what the callback returns when it falls off its [if] chain. *)
Definition item_value := option EmbeddedItem.

(** An element of [searchableItems]: [{ text?, image? }]. *)
Record CatalogItem := {
  text : option string;
  image : option string
}.

Record Match := { index : nat; similarity : number }.

(** Exceptions: the [TypeError] raised by the language when a property of
    [undefined] is read, and whatever the external models raise. *)
Inductive exn :=
  | TypeError
  | ExternalError (message : string).

Inductive result (A : Type) :=
  | Ok (a : A)
  | Throw (e : exn).
Arguments Ok {A} a.
Arguments Throw {A} e.

Definition bind {A B : Type} (r : result A) (k : A -> result B) : result B :=
  match r with
  | Ok a => k a
  | Throw e => Throw e
  end.

Notation "x <- r ;; k" := (bind r (fun x => k))
  (at level 61, r at next level, right associativity).

(** [Array.prototype.map] with a callback that may throw: the first
    exception, in index order, aborts the whole call. *)
Fixpoint map_throwing {A B : Type} (f : A -> result B) (l : list A) : result (list B) :=
  match l with
  | [] => Ok []
  | a :: l' =>
      b <- f a ;;
      bs <- map_throwing f l' ;;
      Ok (b :: bs)
  end.

(** [array.map((x, index) => f(x, index))], indices counted from [i]. *)
Fixpoint mapi_from {A B : Type} (f : A -> nat -> B) (i : nat) (l : list A) : list B :=
  match l with
  | [] => []
  | a :: l' => f a i :: mapi_from f (S i) l'
  end.

Definition mapi {A B : Type} (f : A -> nat -> B) (l : list A) : list B :=
  mapi_from f 0 l.

(** *** Built-ins of the language *)

(** JavaScript truthiness of an optional string property: [undefined] and
    the empty string are falsy. *)
Definition truthy (s : option string) : bool :=
  match s with
  | Some s => negb (s =? "")%string
  | None => false
  end.

(** The string held by a property known to be present. *)
Definition string_of (s : option string) : string :=
  match s with
  | Some s => s
  | None => ""
  end.

Definition is_pos_zero (x : number) : bool := is_zero x && negb (get_sign x).
Definition is_neg_zero (x : number) : bool := is_zero x && get_sign x.

(** [Math.max(a, b)] (ECMA-262, 21.3.2.24): NaN if an argument is NaN;
    otherwise the running maximum [highest], started at -Infinity and
    updated by each argument in turn, with +0 counted above -0. *)
Definition max_step (highest x : number) : number :=
  let highest := if is_pos_zero x && is_neg_zero highest then zero else highest in
  if (highest <? x)%float then x else highest.

Definition Math_max (a b : number) : number :=
  if is_nan a || is_nan b then nan
  else max_step (max_step neg_infinity a) b.

(** [SortCompare] (ECMA-262, 23.1.3.30.2) with a user comparator: a NaN
    result counts as +0. *)
Definition SortCompare {A : Type} (comparefn : A -> A -> number) (x y : A) : number :=
  let v := comparefn x y in
  if is_nan v then zero else v.

(** [Array.prototype.sort(comparefn)].  The language requires the sort to be
    stable and, for a consistent comparator, to return the elements in the
    order the comparator dictates, which determines the result
    ([ranking_unique] below); it is rendered here as a stable insertion
    sort ([x] moves past [y] only when [comparefn(x, y) > 0]).  For a
    comparator that is not consistent (here: when a similarity is NaN) the
    language leaves the order to the engine, and the properties below that
    depend on the order assume no NaN. *)
Fixpoint insert {A : Type} (comparefn : A -> A -> number) (x : A) (l : list A) : list A :=
  match l with
  | [] => [x]
  | y :: l' =>
      if (zero <? SortCompare comparefn x y)%float
      then y :: insert comparefn x l'
      else x :: y :: l'
  end.

Fixpoint sort {A : Type} (comparefn : A -> A -> number) (l : list A) : list A :=
  match l with
  | [] => []
  | x :: l' => insert comparefn x (sort comparefn l')
  end.

(** [Array.prototype.slice(start, end)] (ECMA-262, 23.1.3.28) for integer
    arguments: a negative bound counts from the end of the array. *)
Definition slice {A : Type} (l : list A) (start end_ : Z) : list A :=
  let len := Z.of_nat (List.length l) in
  let k := if (start <? 0)%Z then Z.max (len + start) 0 else Z.min start len in
  let final := if (end_ <? 0)%Z then Z.max (len + end_) 0 else Z.min end_ len in
  firstn (Z.to_nat (final - k)) (skipn (Z.to_nat k) l).

(** [Promise.all]: fulfilled with all the values, in input order, when every
    promise is fulfilled; rejected as soon as one is.  Which rejection wins
    depends on the order in which the promises settle, so the reason is not
    part of the model: [None] stands for a rejected promise. *)
Fixpoint Promise_all {A : Type} (l : list (result A)) : option (list A) :=
  match l with
  | [] => Some []
  | Ok a :: l' =>
      match Promise_all l' with
      | Some vs => Some (a :: vs)
      | None => None
      end
  | Throw _ :: _ => None
  end.

(** *** The functions of [script.js] *)

Section Script.

(** The third-party parts: [cos_sim] of transformers.js, and the two
    embedding pipelines ([getTextEmbedding] and [getImageEmbedding] with
    their tokenizer, processor and models applied), which may throw. *)
Variable cos_sim : list number -> list number -> number.
Variable getTextEmbedding : string -> result Tensor.
Variable getImageEmbedding : string -> result Tensor.

(** The callback [async item => { ... }] of [processSearchableItems]. *)
Definition embed_item (item : CatalogItem) : result item_value :=
  if truthy (text item) && truthy (image item) then
    t <- getTextEmbedding (string_of (text item)) ;;
    i <- getImageEmbedding (string_of (image item)) ;;
    Ok (Some {| text_embed := Some t; image_embed := Some i; type := "both" |})
  else if truthy (text item) then
    t <- getTextEmbedding (string_of (text item)) ;;
    Ok (Some {| text_embed := Some t; image_embed := None; type := "text" |})
  else if truthy (image item) then
    i <- getImageEmbedding (string_of (image item)) ;;
    Ok (Some {| text_embed := None; image_embed := Some i; type := "image" |})
  else Ok None.

Definition processSearchableItems (items : list CatalogItem) : option (list item_value) :=
  Promise_all (map embed_item items).

(** Reading [t.data] where [t] is the value of an item property. *)
Definition data_of (t : option Tensor) : result (list number) :=
  match t with
  | Some t => Ok (data t)
  | None => Throw TypeError
  end.

(** The callback [item => { ... }] of the first [map] in [findBestMatches]. *)
Definition item_similarity (query_embed : Tensor) (item : item_value) : result number :=
  match item with
  | None => Throw TypeError
  | Some item =>
      if (type item =? "both")%string then
        t <- data_of (text_embed item) ;;
        i <- data_of (image_embed item) ;;
        Ok (Math_max (cos_sim (data query_embed) t) (cos_sim (data query_embed) i))
      else if (type item =? "text")%string then
        t <- data_of (text_embed item) ;;
        Ok (cos_sim (data query_embed) t)
      else
        i <- data_of (image_embed item) ;;
        Ok (cos_sim (data query_embed) i)
  end.

(** The comparator [(a, b) => b.similarity - a.similarity]. *)
Definition by_similarity (a b : Match) : number :=
  (similarity b - similarity a)%float.

(** [findBestMatches(query_embed, item_embeds, top_k = 3)]; [top_k] is
    [None] when the argument is omitted. *)
Definition findBestMatches (query_embed : Tensor) (item_embeds : list item_value)
    (top_k : option Z) : result (list Match) :=
  let top_k := match top_k with Some k => k | None => 3%Z end in
  similarities <- map_throwing (item_similarity query_embed) item_embeds ;;
  Ok (slice
        (sort by_similarity
           (mapi (fun similarity index => {| index := index; similarity := similarity |})
                 similarities))
        0 top_k).

End Script.

Arguments embed_item getTextEmbedding getImageEmbedding item : assert.
Arguments processSearchableItems getTextEmbedding getImageEmbedding items : assert.
Arguments item_similarity cos_sim query_embed item : assert.
Arguments findBestMatches cos_sim query_embed item_embeds top_k : assert.

(** ** Part II. [findBestMatches] on a store of objects

    Arrays and objects are references into a store.  [map] and [slice]
    allocate a new array, an object literal allocates a new object, and
    [sort] reorders its array in place and returns the same reference.
    This is the level at which "does not mutate its arguments" and "two
    calls give the same output" are statements about the program. *)

Module Store.

Definition loc := nat.

Inductive value :=
  | VUndefined
  | VNumber (x : number)
  | VRef (l : loc).

Inductive object :=
  | OTensor (data : list number)
  | OItem (text_embed image_embed : value) (type : string)
  | OMatch (index : nat) (similarity : value)
  | OArray (elems : list value).

Definition heap := list object.

(** Computations that read and write the store and may throw. *)
Definition M (A : Type) : Type := heap -> result A * heap.

Definition ret {A : Type} (a : A) : M A := fun h => (Ok a, h).

Definition throw {A : Type} (e : exn) : M A := fun h => (Throw e, h).

Definition mbind {A B : Type} (m : M A) (k : A -> M B) : M B :=
  fun h =>
    match m h with
    | (Ok a, h') => k a h'
    | (Throw e, h') => (Throw e, h')
    end.

Notation "x <~ m ;; k" := (mbind m (fun x => k))
  (at level 61, m at next level, right associativity).
Notation "' pat <~ m ;; k" := (mbind m (fun x => match x with pat => k end))
  (at level 61, pat pattern, m at next level, right associativity).

Definition alloc (o : object) : M value :=
  fun h => (Ok (VRef (List.length h)), h ++ [o]).

Fixpoint update (l : loc) (o : object) (h : heap) : heap :=
  match h, l with
  | [], _ => []
  | _ :: h', O => o :: h'
  | o' :: h', S l' => o' :: update l' o h'
  end.

(** The object a value refers to, if it is a reference. *)
Definition deref (h : heap) (v : value) : option object :=
  match v with
  | VRef l => nth_error h l
  | _ => None
  end.

(** The elements of an array; calling an array method on anything else
    throws. *)
Definition get_elems (arr : value) : M (list value) :=
  fun h =>
    match deref h arr with
    | Some (OArray elems) => (Ok elems, h)
    | _ => (Throw TypeError, h)
    end.

(** Overwrites the elements of an array in place. *)
Definition set_elems (arr : value) (elems : list value) : M unit :=
  fun h =>
    match arr with
    | VRef l => (Ok tt, update l (OArray elems) h)
    | _ => (Throw TypeError, h)
    end.

(** [t.data], as passed to [cos_sim]: reading it from [undefined] throws;
    from a value that is not a tensor it is [undefined], on which
    [cos_sim] throws in turn. *)
Definition get_data (t : value) : M (list number) :=
  fun h =>
    match deref h t with
    | Some (OTensor d) => (Ok d, h)
    | _ => (Throw TypeError, h)
    end.

(** The properties of [item] read by the scoring callback.  On [undefined]
    the read of [item.type] throws; on any value that is not an item
    object, [type] and [image_embed] are [undefined], the last branch is
    taken and [item.image_embed.data] throws: the same [TypeError]. *)
Definition get_item (item : value) : M (value * value * string) :=
  fun h =>
    match deref h item with
    | Some (OItem te ie ty) => (Ok (te, ie, ty), h)
    | _ => (Throw TypeError, h)
    end.

(** [m.similarity]: throws on [undefined], is [undefined] on a value that
    has no such property. *)
Definition get_similarity (m : value) : M value :=
  fun h =>
    match m with
    | VUndefined => (Throw TypeError, h)
    | _ =>
        match deref h m with
        | Some (OMatch _ s) => (Ok s, h)
        | _ => (Ok VUndefined, h)
        end
    end.

(** [ToNumber] on the values that reach the subtraction of the
    comparator: a number is itself, [undefined] is NaN. *)
Definition to_number (v : value) : number :=
  match v with
  | VNumber x => x
  | _ => nan
  end.

Fixpoint mapi_M {A B : Type} (f : A -> nat -> M B) (i : nat) (l : list A) : M (list B) :=
  match l with
  | [] => ret []
  | a :: l' =>
      b <~ f a i ;;
      bs <~ mapi_M f (S i) l' ;;
      ret (b :: bs)
  end.

(** [arr.map(f)]: a new array. *)
Definition array_map (f : value -> nat -> M value) (arr : value) : M value :=
  elems <~ get_elems arr ;;
  vs <~ mapi_M f 0 elems ;;
  alloc (OArray vs).

Fixpoint insert_M (comparefn : value -> value -> M number) (x : value) (l : list value)
    : M (list value) :=
  match l with
  | [] => ret [x]
  | y :: l' =>
      v <~ comparefn x y ;;
      if (zero <? (if is_nan v then zero else v))%float
      then (r <~ insert_M comparefn x l' ;; ret (y :: r))
      else ret (x :: y :: l')
  end.

Fixpoint sort_M (comparefn : value -> value -> M number) (l : list value) : M (list value) :=
  match l with
  | [] => ret []
  | x :: l' =>
      s <~ sort_M comparefn l' ;;
      insert_M comparefn x s
  end.

(** [arr.sort(comparefn)]: the array itself, reordered. *)
Definition array_sort (comparefn : value -> value -> M number) (arr : value) : M value :=
  elems <~ get_elems arr ;;
  sorted <~ sort_M comparefn elems ;;
  _ <~ set_elems arr sorted ;;
  ret arr.

(** [arr.slice(start, end)]: a new array. *)
Definition array_slice (arr : value) (start end_ : Z) : M value :=
  elems <~ get_elems arr ;;
  alloc (OArray (slice elems start end_)).

End Store.

(** The functions of the script, on the store. *)
Module OnStore.

Import Store.

Section Script.

(** [cos_sim] is handed the two [data] arrays; it computes a number from
    their contents and writes to neither. *)
Variable cos_sim : list number -> list number -> number.

(** The callback [item => { ... }] of the first [map]. *)
Definition item_similarity (query_embed item : value) : M number :=
  '(te, ie, ty) <~ get_item item ;;
  if (ty =? "both")%string then
    q <~ get_data query_embed ;;
    t <~ get_data te ;;
    i <~ get_data ie ;;
    ret (Math_max (cos_sim q t) (cos_sim q i))
  else if (ty =? "text")%string then
    q <~ get_data query_embed ;;
    t <~ get_data te ;;
    ret (cos_sim q t)
  else
    q <~ get_data query_embed ;;
    i <~ get_data ie ;;
    ret (cos_sim q i).

(** The comparator [(a, b) => b.similarity - a.similarity]. *)
Definition by_similarity (a b : value) : M number :=
  sb <~ get_similarity b ;;
  sa <~ get_similarity a ;;
  ret (to_number sb - to_number sa)%float.

(** [findBestMatches(query_embed, item_embeds, top_k = 3)]: two [map]s,
    the in-place [sort] of the array made by the second one, and [slice]. *)
Definition findBestMatches (query_embed item_embeds : value) (top_k : option Z) : M value :=
  let top_k := match top_k with Some k => k | None => 3%Z end in
  similarities <~
    array_map (fun item _ => s <~ item_similarity query_embed item ;; ret (VNumber s))
              item_embeds ;;
  pairs <~ array_map (fun similarity index => alloc (OMatch index similarity)) similarities ;;
  sorted <~ array_sort by_similarity pairs ;;
  array_slice sorted 0 top_k.

End Script.

End OnStore.

(** ** Part III. Vocabulary of the statements *)

(** *** Rankings *)

Definition make_match (similarity : number) (index : nat) : Match :=
  {| index := index; similarity := similarity |}.

(** The ranking of a list of similarities, before [slice]. *)
Definition ranking (sims : list number) : list Match :=
  sort by_similarity (mapi make_match sims).

Definition not_nan (m : Match) : Prop := is_nan (similarity m) = false.

(** [a] is ranked before [b]: a strictly larger similarity, or an equal
    one and a smaller catalog index. *)
Definition ranked_before (a b : Match) : Prop :=
  (similarity b <? similarity a)%float = true \/
  ((similarity b =? similarity a)%float = true /\ (index a < index b)%nat).

(** *** Well-formed inputs *)

(** The invariant of an embedded item: it is an object whose [type] names
    exactly the embeddings it holds. *)
Definition well_formed (item : item_value) : bool :=
  match item with
  | Some {| text_embed := Some _; image_embed := Some _; type := ty |} => (ty =? "both")%string
  | Some {| text_embed := Some _; image_embed := None; type := ty |} => (ty =? "text")%string
  | Some {| text_embed := None; image_embed := Some _; type := ty |} => (ty =? "image")%string
  | _ => false
  end.

(** Every similarity computed for the catalog is a number, not NaN (the
    contract of a cosine, whose values lie between -1 and 1). *)
Definition scores_are_numbers cos_sim (q : Tensor) (catalog : list item_value) : bool :=
  forallb (fun item =>
             match item_similarity cos_sim q item with
             | Ok s => negb (is_nan s)
             | Throw _ => true
             end) catalog.

Definition is_ok {A : Type} (r : result A) : bool :=
  match r with
  | Ok _ => true
  | Throw _ => false
  end.

(** The embedding calls that [embed_item] makes for [item] all succeed. *)
Definition providers_succeed (getTextEmbedding getImageEmbedding : string -> result Tensor)
    (item : CatalogItem) : bool :=
  (if truthy (text item) then is_ok (getTextEmbedding (string_of (text item))) else true) &&
  (if truthy (image item) then is_ok (getImageEmbedding (string_of (image item))) else true).

(** *** What a store holds *)

Import Store.

Definition read_tensor (h : heap) (v : value) : option Tensor :=
  match deref h v with
  | Some (OTensor d) => Some {| data := d |}
  | _ => None
  end.

(** An embedding property of an item: absent, or a tensor. *)
Definition read_property (h : heap) (v : value) : option (option Tensor) :=
  match v with
  | VUndefined => Some None
  | _ => option_map Some (read_tensor h v)
  end.

Definition read_item (h : heap) (v : value) : option item_value :=
  match v with
  | VUndefined => Some None
  | _ =>
      match deref h v with
      | Some (OItem te ie ty) =>
          match read_property h te, read_property h ie with
          | Some t, Some i => Some (Some {| text_embed := t; image_embed := i; type := ty |})
          | _, _ => None
          end
      | _ => None
      end
  end.

Definition read_match (h : heap) (v : value) : option Match :=
  match deref h v with
  | Some (OMatch i (VNumber s)) => Some {| index := i; similarity := s |}
  | _ => None
  end.

Fixpoint read_all {A : Type} (rd : value -> option A) (vs : list value) : option (list A) :=
  match vs with
  | [] => Some []
  | v :: vs' =>
      match rd v, read_all rd vs' with
      | Some a, Some l => Some (a :: l)
      | _, _ => None
      end
  end.

Definition read_array {A : Type} (rd : heap -> value -> option A) (h : heap) (v : value)
    : option (list A) :=
  match deref h v with
  | Some (OArray elems) => read_all (rd h) elems
  | _ => None
  end.

Definition read_catalog : heap -> value -> option (list item_value) := read_array read_item.
Definition read_matches : heap -> value -> option (list Match) := read_array read_match.

Definition lift_numbers (r : result (list number)) : result (list value) :=
  match r with
  | Ok sims => Ok (map VNumber sims)
  | Throw e => Throw e
  end.

Definition match_object (similarity : value) (index : nat) : object :=
  OMatch index similarity.

(** *** What a computation leaves untouched

    [keeps n m Q]: run on a store with at least [n] objects, [m] leaves the
    first [n] objects as they are, does not shrink the store, and its
    result, if any, satisfies [Q]. *)

Definition keeps (n : nat) {A : Type} (m : M A) (Q : A -> Prop) : Prop :=
  forall h : heap, (n <= List.length h)%nat ->
    firstn n (snd (m h)) = firstn n h /\
    (List.length h <= List.length (snd (m h)))%nat /\
    forall a, fst (m h) = Ok a -> Q a.

Definition fresh_ref (n : nat) (v : value) : Prop :=
  exists l, v = VRef l /\ (n <= l)%nat.

Definition anything {A : Type} (_ : A) : Prop := True.

(** *** Binary64 values of the specification *)

(** A value that is not zero and not NaN, with sign [s]: what the rounding
    step of the specification produces from a non-zero mantissa. *)
Definition signed_nonzero (s : bool) (r : spec_float) : Prop :=
  (exists m e, r = S754_finite s m e) \/ r = S754_infinity s.

(** A value that is not NaN is ordered by its class (negative infinity,
    negative, zero, positive, positive infinity), then by its exponent and
    its mantissa: the keys [k1], [k2] and [k3]. *)
Definition k1 (x : spec_float) : Z :=
  match x with
  | S754_infinity true => -2
  | S754_finite true _ _ => -1
  | S754_finite false _ _ => 1
  | S754_infinity false => 2
  | _ => 0
  end.

Definition k2 (x : spec_float) : Z :=
  match x with
  | S754_finite s _ e => if s then - e else e
  | _ => 0
  end.

Definition k3 (x : spec_float) : Z :=
  match x with
  | S754_finite s m _ => if s then Zneg m else Zpos m
  | _ => 0
  end.

Definition key_lt (x y : spec_float) : Prop :=
  k1 x < k1 y \/ (k1 x = k1 y /\ (k2 x < k2 y \/ (k2 x = k2 y /\ k3 x < k3 y))).

Definition key_eq (x y : spec_float) : Prop :=
  k1 x = k1 y /\ k2 x = k2 y /\ k3 x = k3 y.

(** ** Part IV. A concrete instance

    The usual cosine similarity on arrays of numbers (dot product over the
    product of the magnitudes), two embedding pipelines that look their
    input up in a small table, a catalog of four items, and the same
    catalog laid out in a store. *)

Module Demo.

Fixpoint dot_from (result : number) (arr1 arr2 : list number) : number :=
  match arr1, arr2 with
  | [], _ => result
  | x :: arr1', y :: arr2' => dot_from (result + x * y)%float arr1' arr2'
  | _ :: _, [] => nan
  end.

Definition dot (arr1 arr2 : list number) : number := dot_from zero arr1 arr2.

Definition magnitude (arr : list number) : number :=
  sqrt (fold_left (fun acc val => (acc + val * val)%float) arr zero).

Definition cosine (arr1 arr2 : list number) : number :=
  (dot arr1 arr2 / (magnitude arr1 * magnitude arr2))%float.

Definition east : Tensor := {| data := [1%float; 0%float] |}.
Definition north : Tensor := {| data := [0%float; 1%float] |}.
Definition north_east : Tensor := {| data := [1%float; 1%float] |}.
Definition origin : Tensor := {| data := [0%float; 0%float] |}.

Definition embedText (s : string) : result Tensor :=
  if (s =? "cat")%string then Ok east
  else if (s =? "dog")%string then Ok north
  else if (s =? "bird")%string then Ok north_east
  else Throw (ExternalError "unknown text").

Definition embedImage (s : string) : result Tensor :=
  if (s =? "cat.jpg")%string then Ok north_east
  else if (s =? "dog.jpg")%string then Ok north
  else Throw (ExternalError "unreadable image").

Definition items : list CatalogItem :=
  [ {| text := Some "dog"; image := Some "cat.jpg" |};
    {| text := Some "cat"; image := None |};
    {| text := None; image := Some "cat.jpg" |};
    {| text := Some "dog"; image := Some "" |} ].

(** The embedded catalog of [items]; against [east] its similarities are
    about 0.707, 1, 0.707 and 0, with a tie between indices 0 and 2. *)
Definition catalog : list item_value :=
  [ Some {| text_embed := Some north; image_embed := Some north_east; type := "both" |};
    Some {| text_embed := Some east; image_embed := None; type := "text" |};
    Some {| text_embed := None; image_embed := Some north_east; type := "image" |};
    Some {| text_embed := Some north; image_embed := None; type := "text" |} ].

End Demo.

Module DemoStore.

Local Open Scope nat_scope.

Definition heap : Store.heap :=
  [ OTensor (data Demo.east);
    OTensor (data Demo.north);
    OTensor (data Demo.north_east);
    OItem (VRef 1) (VRef 2) "both";
    OItem (VRef 0) VUndefined "text";
    OItem VUndefined (VRef 2) "image";
    OItem (VRef 1) VUndefined "text";
    OArray [VRef 3; VRef 4; VRef 5; VRef 6] ].

Definition query : value := VRef 0.
Definition catalog : value := VRef 7.

End DemoStore.

(** ** Part V. IEEE 754 facts needed by the comparator [(a, b) => b - a]

    [Array.prototype.sort] only looks at the sign of the comparator's
    result.  This part shows that for binary64 values the sign of [b - a]
    is exactly the outcome of comparing [a] with [b], and that comparison
    is a total preorder on the values that are not NaN. *)

Module IEEE.

Local Open Scope Z_scope.

(** *** Binary digits and right shifts of the specification *)

Lemma digits2_pos_bounds (m : positive) :
  2 ^ (Zpos (digits2_pos m) - 1) <= Zpos m < 2 ^ Zpos (digits2_pos m).
Proof.
  induction m as [m IH | m IH |]; cbn [digits2_pos].
  - rewrite Pos2Z.inj_succ.
    replace (Z.succ (Zpos (digits2_pos m)) - 1) with (Z.succ (Zpos (digits2_pos m) - 1)) by lia.
    rewrite !Z.pow_succ_r by lia. lia.
  - rewrite Pos2Z.inj_succ.
    replace (Z.succ (Zpos (digits2_pos m)) - 1) with (Z.succ (Zpos (digits2_pos m) - 1)) by lia.
    rewrite !Z.pow_succ_r by lia. lia.
  - cbn. lia.
Qed.

Lemma shr_1_m (mrs : shr_record) :
  0 <= shr_m mrs -> shr_m (shr_1 mrs) = shr_m mrs / 2.
Proof.
  destruct mrs as [m r s]; cbn [shr_m shr_1]; intros Hm.
  rewrite <- Z.div2_div.
  destruct m as [| [p | p |] | p]; try reflexivity; lia.
Qed.

Lemma iter_shr_1_m (p : positive) : forall mrs,
  0 <= shr_m mrs ->
  shr_m (iter_pos shr_1 p mrs) = shr_m mrs / 2 ^ Zpos p.
Proof.
  induction p as [p IH | p IH |]; intros mrs Hm; cbn [iter_pos].
  - assert (H1 : 0 <= shr_m (shr_1 mrs)).
    { rewrite shr_1_m by assumption. apply Z.div_pos; lia. }
    assert (H2 : 0 <= shr_m (iter_pos shr_1 p (shr_1 mrs))).
    { rewrite IH by assumption. apply Z.div_pos; [assumption | apply Z.pow_pos_nonneg; lia]. }
    rewrite IH, IH, shr_1_m by assumption.
    assert (Hp : 0 < 2 ^ Zpos p) by (apply Z.pow_pos_nonneg; lia).
    assert (E : 2 ^ Zpos p~1 = 2 * 2 ^ Zpos p * 2 ^ Zpos p).
    { replace (Zpos p~1) with (1 + Zpos p + Zpos p) by lia.
      rewrite !Z.pow_add_r, Z.pow_1_r by lia. reflexivity. }
    rewrite !Z.div_div, E by lia. f_equal. lia.
  - assert (H2 : 0 <= shr_m (iter_pos shr_1 p mrs)).
    { rewrite IH by assumption. apply Z.div_pos; [assumption | apply Z.pow_pos_nonneg; lia]. }
    rewrite IH, IH by assumption.
    assert (Hp : 0 < 2 ^ Zpos p) by (apply Z.pow_pos_nonneg; lia).
    assert (E : 2 ^ Zpos p~0 = 2 ^ Zpos p * 2 ^ Zpos p).
    { replace (Zpos p~0) with (Zpos p + Zpos p) by lia.
      rewrite Z.pow_add_r by lia. reflexivity. }
    rewrite !Z.div_div, E by lia. reflexivity.
  - rewrite shr_1_m by assumption. reflexivity.
Qed.

Lemma shr_record_of_loc_m (m : Z) (l : location) :
  shr_m (shr_record_of_loc m l) = m.
Proof. destruct l as [| []]; reflexivity. Qed.

(** Shifting a positive mantissa to its canonical exponent never loses the
    whole mantissa, provided the exponent is not below [emin]. *)
Lemma shr_fexp_pos (m e : Z) (l : location) :
  0 < m -> emin <= e ->
  0 < shr_m (fst (shr_fexp prec emax m e l)) /\
  emin <= snd (shr_fexp prec emax m e l).
Proof.
  intros Hm He. unfold shr_fexp, shr.
  destruct m as [| m | m]; try lia. cbn [Zdigits2].
  pose proof (digits2_pos_bounds m) as [Hlo Hhi].
  set (d := Zpos (digits2_pos m)) in *.
  assert (Hd : 1 <= d) by (unfold d; lia).
  destruct (fexp prec emax (d + e) - e) as [| n | n] eqn:Hn; cbn [fst snd];
    rewrite ?shr_record_of_loc_m; try lia.
  rewrite iter_shr_1_m by (rewrite shr_record_of_loc_m; lia).
  rewrite shr_record_of_loc_m.
  assert (Hnd : Zpos n <= d - 1).
  { unfold fexp, SpecFloat.emin, prec, emax in Hn. unfold SpecFloat.emin, prec, emax in He. lia. }
  split; [| lia].
  apply Z.div_str_pos. split; [apply Z.pow_pos_nonneg; lia |].
  transitivity (2 ^ (d - 1)); [apply Z.pow_le_mono_r; lia | assumption].
Qed.

Lemma round_nearest_even_pos (m : Z) (l : location) :
  0 < m -> 0 < round_nearest_even m l.
Proof.
  intros Hm. destruct l as [| []]; cbn [round_nearest_even]; try lia.
  destruct (Z.even m); lia.
Qed.

Lemma binary_round_aux_nonzero (s : bool) (m e : Z) (l : location) :
  0 < m -> emin <= e ->
  signed_nonzero s (binary_round_aux prec emax s m e l).
Proof.
  intros Hm He. unfold binary_round_aux.
  pose proof (shr_fexp_pos m e l Hm He) as [H1 H2].
  destruct (shr_fexp prec emax m e l) as [mrs' e']. cbn [fst snd] in *.
  pose proof (round_nearest_even_pos _ (loc_of_shr_record mrs') H1) as H3.
  pose proof (shr_fexp_pos _ e' loc_Exact H3 H2) as [H4 _].
  destruct (shr_fexp prec emax _ e' loc_Exact) as [mrs'' e'']. cbn [fst] in H4.
  destruct (shr_m mrs'') as [| q | q]; try lia.
  destruct (e'' <=? emax - prec); [left; eauto | right; reflexivity].
Qed.

Lemma binary_round_nonzero (s : bool) (m : positive) (e : Z) :
  emin <= e -> signed_nonzero s (binary_round prec emax s m e).
Proof.
  intros He. unfold binary_round, shl_align.
  destruct (fexp prec emax (Zpos (digits2_pos m) + e) - e) eqn:Hn;
    apply binary_round_aux_nonzero; try lia.
  unfold fexp. apply Z.le_max_r.
Qed.

Lemma binary_normalize_sign (d e : Z) :
  emin <= e ->
  SFltb (S754_zero false) (binary_normalize prec emax d e false) = (0 <? d) /\
  SFltb (binary_normalize prec emax d e false) (S754_zero false) = (d <? 0).
Proof.
  intros He. destruct d as [| d | d]; cbn [binary_normalize].
  - split; reflexivity.
  - destruct (binary_round_nonzero false d e He) as [(m' & e' & ->) | ->];
      split; reflexivity.
  - destruct (binary_round_nonzero true d e He) as [(m' & e' & ->) | ->];
      split; reflexivity.
Qed.

(** *** Comparison as a lexicographic order on (class, exponent, mantissa) *)

Lemma SFcompare_key (x y : spec_float) :
  match SFcompare x y with
  | Some Lt => key_lt x y
  | Some Eq => key_eq x y
  | Some Gt => key_lt y x
  | None => x = S754_nan \/ y = S754_nan
  end.
Proof.
  unfold key_lt, key_eq.
  destruct x as [sx | sx | | sx mx ex], y as [sy | sy | | sy my ey];
    try destruct sx; try destruct sy; cbn [SFcompare k1 k2 k3]; auto; try lia;
    change (Pos.compare_cont Eq mx my) with (mx ?= my)%positive;
    destruct (Z.compare_spec ex ey); try lia;
    destruct (Pos.compare_spec mx my); cbn [CompOpp]; lia.
Qed.

Lemma key_trichotomy (x y : spec_float) :
  (key_lt x y /\ ~ key_eq x y /\ ~ key_lt y x) \/
  (~ key_lt x y /\ key_eq x y /\ ~ key_lt y x) \/
  (~ key_lt x y /\ ~ key_eq x y /\ key_lt y x).
Proof. unfold key_lt, key_eq. lia. Qed.

Lemma SFcompare_Some (x y : spec_float) (c : comparison) :
  SFcompare x y = Some c -> x <> S754_nan /\ y <> S754_nan.
Proof. intros E. split; intros ->; [destruct y | destruct x]; discriminate. Qed.

Lemma SFltb_key (x y : spec_float) :
  SFltb x y = true <-> x <> S754_nan /\ y <> S754_nan /\ key_lt x y.
Proof.
  pose proof (SFcompare_key x y) as H. pose proof (key_trichotomy x y) as T.
  unfold SFltb.
  destruct (SFcompare x y) as [[] |] eqn:E.
  - split; [discriminate | tauto].
  - apply SFcompare_Some in E. tauto.
  - split; [discriminate | tauto].
  - split; [discriminate | tauto].
Qed.

Lemma SFeqb_key (x y : spec_float) :
  SFeqb x y = true <-> x <> S754_nan /\ y <> S754_nan /\ key_eq x y.
Proof.
  pose proof (SFcompare_key x y) as H. pose proof (key_trichotomy x y) as T.
  unfold SFeqb.
  destruct (SFcompare x y) as [[] |] eqn:E.
  - apply SFcompare_Some in E. tauto.
  - split; [discriminate | tauto].
  - split; [discriminate | tauto].
  - split; [discriminate | tauto].
Qed.

Lemma SFleb_ltb_eqb (x y : spec_float) :
  SFleb x y = SFltb x y || SFeqb x y.
Proof. unfold SFleb, SFltb, SFeqb. destruct (SFcompare x y) as [[] |]; reflexivity. Qed.

(** *** The sign of a difference *)

Lemma bounded_facts (m : positive) (e : Z) :
  bounded prec emax m e = true ->
  emin <= e /\ Zpos m < 9007199254740992 /\
  (e = emin \/ 4503599627370496 <= Zpos m).
Proof.
  unfold bounded, canonical_mantissa, fexp, SpecFloat.emin, prec, emax.
  intros H. apply andb_true_iff in H as [H _]. apply Z.eqb_eq in H.
  pose proof (digits2_pos_bounds m) as [Hlo Hhi].
  set (d := Zpos (digits2_pos m)) in *.
  assert (Hd : d <= 53) by lia.
  assert (H53 : 2 ^ d <= 2 ^ 53) by (apply Z.pow_le_mono_r; lia).
  change (2 ^ 53) with 9007199254740992 in H53.
  repeat split; try lia.
  destruct (Z.eq_dec d 53) as [E | E]; [right | left; lia].
  rewrite E in Hlo. exact Hlo.
Qed.

Lemma iter_xO_pow (m d : positive) :
  Zpos (Pos.iter xO m d) = Zpos m * 2 ^ Zpos d.
Proof.
  induction d as [| d IH] using Pos.peano_ind.
  - cbn [Pos.iter]. rewrite Z.pow_1_r. lia.
  - rewrite Pos.iter_succ, Pos2Z.inj_xO, IH, Pos2Z.inj_succ, Z.pow_succ_r by lia. lia.
Qed.

Lemma shl_align_fst (m : positive) (e ez : Z) :
  ez <= e -> Zpos (fst (shl_align m e ez)) = Zpos m * 2 ^ (e - ez).
Proof.
  intros H. unfold shl_align.
  destruct (ez - e) as [| d | d] eqn:E; cbn [fst]; try lia.
  - replace (e - ez) with 0 by lia. lia.
  - rewrite iter_xO_pow. f_equal. f_equal. lia.
Qed.

(** Two canonical mantissas, once aligned on the smaller exponent, compare
    like the pairs (exponent, mantissa). *)
Lemma aligned_compare (m1 m2 : positive) (e1 e2 : Z) :
  bounded prec emax m1 e1 = true -> bounded prec emax m2 e2 = true ->
  let a1 := Zpos (fst (shl_align m1 e1 (Z.min e1 e2))) in
  let a2 := Zpos (fst (shl_align m2 e2 (Z.min e1 e2))) in
  (e1 < e2 -> a1 < a2) /\ (e2 < e1 -> a2 < a1) /\
  (e1 = e2 -> a1 = Zpos m1 /\ a2 = Zpos m2).
Proof.
  intros B1 B2 a1 a2. subst a1 a2.
  apply bounded_facts in B1 as (L1 & U1 & N1), B2 as (L2 & U2 & N2).
  rewrite !shl_align_fst by lia.
  repeat split.
  - intros Hlt. rewrite Z.min_l by lia. rewrite Z.sub_diag, Z.pow_0_r.
    assert (P : 2 ^ 1 <= 2 ^ (e2 - e1)) by (apply Z.pow_le_mono_r; lia).
    rewrite Z.pow_1_r in P. nia.
  - intros Hlt. rewrite Z.min_r by lia. rewrite Z.sub_diag, Z.pow_0_r.
    assert (P : 2 ^ 1 <= 2 ^ (e1 - e2)) by (apply Z.pow_le_mono_r; lia).
    rewrite Z.pow_1_r in P. nia.
  - subst e2. rewrite Z.min_id, Z.sub_diag, Z.pow_0_r. lia.
  - subst e2. rewrite Z.min_id, Z.sub_diag, Z.pow_0_r. lia.
Qed.

(** The comparator of [findBestMatches] computes [b - a]; at the level of
    the specification, the sign of that difference decides [a < b] and
    [b < a].  NaN operands give a NaN difference, for which every
    comparison is false, so the equations hold for all values. *)
Lemma SFsub_sign (x y : spec_float) :
  valid_binary x = true -> valid_binary y = true ->
  SFltb (S754_zero false) (SF64sub y x) = SFltb x y /\
  SFltb (SF64sub y x) (S754_zero false) = SFltb y x.
Proof.
  intros Vx Vy.
  destruct x as [sx | sx | | sx mx ex], y as [sy | sy | | sy my ey];
    try (destruct sx; destruct sy; split; reflexivity);
    try (destruct sx; split; reflexivity);
    try (destruct sy; split; reflexivity);
    try (split; reflexivity).
  cbn [valid_binary] in Vx, Vy.
  pose proof (aligned_compare my mx ey ex Vy Vx) as A. cbv zeta in A.
  pose proof (bounded_facts _ _ Vx) as (Lx & _ & _).
  pose proof (bounded_facts _ _ Vy) as (Ly & _ & _).
  unfold SF64sub, SFsub.
  set (ay := Zpos (fst (shl_align my ey (Z.min ey ex)))) in *.
  set (ax := Zpos (fst (shl_align mx ex (Z.min ey ex)))) in *.
  assert (Hay : 0 < ay) by (unfold ay; lia).
  assert (Hax : 0 < ax) by (unfold ax; lia).
  destruct (binary_normalize_sign (cond_Zopp sy ay - cond_Zopp sx ax) (Z.min ey ex))
    as [-> ->]; [lia |].
  split; apply eq_iff_eq_true; rewrite SFltb_key, Z.ltb_lt;
    unfold key_lt; cbn [k1 k2 k3];
    destruct sx, sy; cbn [cond_Zopp]; (split; [intros H; repeat split; try discriminate| intros (_ & _ & H)]); lia.
Qed.

(** *** The same facts on primitive floats *)

Local Open Scope float_scope.

Lemma sub_sign_pos (a b : float) : (zero <? b - a) = (a <? b).
Proof.
  rewrite !ltb_spec, sub_spec.
  change (Prim2SF zero) with (S754_zero false).
  apply SFsub_sign; apply Prim2SF_valid.
Qed.

Lemma sub_sign_neg (a b : float) : (b - a <? zero) = (b <? a).
Proof.
  rewrite !ltb_spec, sub_spec.
  change (Prim2SF zero) with (S754_zero false).
  apply SFsub_sign; apply Prim2SF_valid.
Qed.

Lemma is_nan_spec (a : float) : is_nan a = false <-> Prim2SF a <> S754_nan.
Proof.
  unfold is_nan. rewrite negb_false_iff, eqb_spec, SFeqb_key.
  unfold key_eq. tauto.
Qed.

Lemma ltb_key (a b : float) :
  (a <? b) = true <->
  is_nan a = false /\ is_nan b = false /\ key_lt (Prim2SF a) (Prim2SF b).
Proof. rewrite ltb_spec, SFltb_key, !is_nan_spec. tauto. Qed.

Lemma eqb_key (a b : float) :
  (a =? b) = true <->
  is_nan a = false /\ is_nan b = false /\ key_eq (Prim2SF a) (Prim2SF b).
Proof. rewrite eqb_spec, SFeqb_key, !is_nan_spec. tauto. Qed.

Lemma leb_ltb_eqb (a b : float) : (a <=? b) = (a <? b) || (a =? b).
Proof. rewrite leb_spec, ltb_spec, eqb_spec. apply SFleb_ltb_eqb. Qed.

(** Turns boolean float comparisons into linear facts about the keys. *)
Ltac float_order :=
  repeat match goal with
  | H : (_ <? _) = false |- _ => apply not_true_iff_false in H
  | H : (_ =? _) = false |- _ => apply not_true_iff_false in H
  | |- (_ <? _) = false => apply not_true_iff_false
  | |- (_ =? _) = false => apply not_true_iff_false
  end;
  rewrite ?leb_ltb_eqb, ?orb_true_iff in *;
  rewrite ?ltb_key, ?eqb_key in *;
  unfold key_lt, key_eq in *;
  intuition lia.

Lemma ltb_trans (a b c : float) :
  (a <? b) = true -> (b <? c) = true -> (a <? c) = true.
Proof. intros; float_order. Qed.

Lemma ltb_eqb_trans (a b c : float) :
  (a <? b) = true -> (b =? c) = true -> (a <? c) = true.
Proof. intros; float_order. Qed.

Lemma eqb_ltb_trans (a b c : float) :
  (a =? b) = true -> (b <? c) = true -> (a <? c) = true.
Proof. intros; float_order. Qed.

Lemma eqb_trans (a b c : float) :
  (a =? b) = true -> (b =? c) = true -> (a =? c) = true.
Proof. intros; float_order. Qed.

Lemma eqb_sym (a b : float) : (a =? b) = true -> (b =? a) = true.
Proof. intros; float_order. Qed.

Lemma eqb_refl (a : float) : is_nan a = false -> (a =? a) = true.
Proof. intros; float_order. Qed.

Lemma ltb_total (a b : float) :
  is_nan a = false -> is_nan b = false ->
  (a <? b) = false -> (b <? a) = true \/ (b =? a) = true.
Proof.
  intros Ha Hb H. destruct (b <? a) eqn:E1; [now left | right].
  float_order.
Qed.

Lemma ltb_asym (a b : float) : (a <? b) = true -> (b <? a) = false.
Proof. intros; float_order. Qed.

Lemma ltb_not_eqb (a b : float) : (a <? b) = true -> (b =? a) = false.
Proof. intros; float_order. Qed.

Lemma leb_true (a b : float) :
  (a <=? b) = true <-> (a <? b) = true \/ (a =? b) = true.
Proof. rewrite leb_ltb_eqb, orb_true_iff. tauto. Qed.

Lemma ltb_nan_l (a b : float) : (a <? b) = true -> is_nan a = false.
Proof. rewrite ltb_key. tauto. Qed.

Lemma ltb_nan_r (a b : float) : (a <? b) = true -> is_nan b = false.
Proof. rewrite ltb_key. tauto. Qed.

End IEEE.

(** ** Part VI. Lists and the order of a ranking *)

(** *** Lists *)

Ltac case_if :=
  match goal with
  | |- context [if ?b then _ else _] => destruct b eqn:?
  end.

Lemma map_throwing_length {A B : Type} (f : A -> result B) (l : list A) (bs : list B) :
  map_throwing f l = Ok bs -> List.length bs = List.length l.
Proof.
  revert bs. induction l as [| a l IH]; intros bs H; cbn in H.
  - injection H as <-. reflexivity.
  - destruct (f a) as [b | e]; cbn in H; [| discriminate].
    destruct (map_throwing f l) as [bs' | e]; cbn in H; [| discriminate].
    injection H as <-. cbn. f_equal. apply IH. reflexivity.
Qed.

Lemma map_throwing_nth {A B : Type} (f : A -> result B) (l : list A) (bs : list B) :
  map_throwing f l = Ok bs ->
  forall (i : nat) (b : B), nth_error bs i = Some b ->
  exists a, nth_error l i = Some a /\ f a = Ok b.
Proof.
  revert bs. induction l as [| a l IH]; intros bs H i b Hb; cbn in H.
  - injection H as <-. destruct i; discriminate.
  - destruct (f a) as [b0 | e] eqn:Ea; cbn in H; [| discriminate].
    destruct (map_throwing f l) as [bs' | e]; cbn in H; [| discriminate].
    injection H as <-. destruct i as [| i]; cbn in *.
    + injection Hb as <-. eauto.
    + eapply IH; eauto.
Qed.

Lemma map_throwing_total {A B : Type} (f : A -> result B) (l : list A) :
  Forall (fun a => exists b, f a = Ok b) l ->
  exists bs, map_throwing f l = Ok bs.
Proof.
  induction 1 as [| a l [b Hb] _ [bs IH]]; cbn.
  - eauto.
  - rewrite Hb, IH. cbn. eauto.
Qed.

Lemma mapi_from_length {A B : Type} (f : A -> nat -> B) (i : nat) (l : list A) :
  List.length (mapi_from f i l) = List.length l.
Proof. revert i. induction l; intros i; cbn; auto. Qed.

Lemma mapi_from_nth {A B : Type} (f : A -> nat -> B) (i : nat) (l : list A) (j : nat) (b : B) :
  nth_error (mapi_from f i l) j = Some b ->
  exists a, nth_error l j = Some a /\ b = f a (i + j)%nat.
Proof.
  revert i j. induction l as [| a l IH]; intros i j H; cbn in *.
  - destruct j; discriminate.
  - destruct j as [| j]; cbn in *.
    + injection H as <-. exists a. rewrite Nat.add_0_r. auto.
    + apply IH in H as (a' & H1 & H2). exists a'. split; [assumption |].
      rewrite H2. f_equal. lia.
Qed.

Lemma insert_length {A : Type} (c : A -> A -> number) (x : A) (l : list A) :
  List.length (insert c x l) = S (List.length l).
Proof.
  induction l as [| y l IH]; cbn [insert]; [reflexivity |].
  case_if; cbn [List.length]; rewrite ?IH; reflexivity.
Qed.

Lemma sort_length {A : Type} (c : A -> A -> number) (l : list A) :
  List.length (sort c l) = List.length l.
Proof.
  induction l as [| x l IH]; cbn [sort]; [reflexivity |].
  rewrite insert_length. cbn [List.length]. auto.
Qed.

Lemma insert_Forall {A : Type} (P : A -> Prop) (c : A -> A -> number) (x : A) (l : list A) :
  Forall P (insert c x l) <-> P x /\ Forall P l.
Proof.
  induction l as [| y l IH]; cbn [insert].
  - split; [intros H; inversion H; auto | intros [H1 H2]; auto].
  - case_if.
    + rewrite !Forall_cons_iff, IH. tauto.
    + rewrite !Forall_cons_iff. tauto.
Qed.

Lemma sort_Forall {A : Type} (P : A -> Prop) (c : A -> A -> number) (l : list A) :
  Forall P (sort c l) <-> Forall P l.
Proof.
  induction l as [| x l IH]; cbn [sort]; [tauto |].
  rewrite insert_Forall, Forall_cons_iff, IH. tauto.
Qed.

Lemma slice_from_0 {A : Type} (l : list A) (k : Z) :
  slice l 0 k =
  firstn (Z.to_nat (if (k <? 0)%Z then Z.max (Z.of_nat (List.length l) + k) 0
                    else Z.min k (Z.of_nat (List.length l)))) l.
Proof.
  unfold slice. cbn [Z.ltb Z.compare].
  rewrite (Z.min_l 0) by lia. cbn [Z.to_nat skipn]. rewrite Z.sub_0_r. reflexivity.
Qed.

Lemma In_firstn {A : Type} (n : nat) (l : list A) (x : A) :
  In x (firstn n l) -> In x l.
Proof.
  intros H. rewrite <- (firstn_skipn n l). apply in_or_app. now left.
Qed.

Lemma StronglySorted_firstn {A : Type} (R : A -> A -> Prop) (n : nat) (l : list A) :
  StronglySorted R l -> StronglySorted R (firstn n l).
Proof.
  intros H. revert n. induction H as [| a l H IH Ha]; intros n.
  - rewrite firstn_nil. constructor.
  - destruct n as [| n]; cbn; constructor; [apply IH |].
    rewrite Forall_forall in *. intros x Hx. apply Ha.
    rewrite <- (firstn_skipn n l). apply in_or_app. now left.
Qed.

Lemma StronglySorted_nth {A : Type} (R : A -> A -> Prop) (l : list A) :
  StronglySorted R l ->
  forall (i j : nat) (a b : A), (i < j)%nat ->
  nth_error l i = Some a -> nth_error l j = Some b -> R a b.
Proof.
  induction 1 as [| x l H IH Hx]; intros i j a b Hij Ha Hb.
  - destruct i; discriminate.
  - destruct j as [| j]; [lia |]. cbn in Hb.
    destruct i as [| i]; cbn in Ha.
    + injection Ha as <-. rewrite Forall_forall in Hx. apply Hx.
      eapply nth_error_In; eassumption.
    + eapply IH; [| eassumption | eassumption]. lia.
Qed.

(** *** The order produced by the comparator *)

Import IEEE.

(** The sort moves [x] past [y] exactly when [x] has the smaller similarity. *)
Lemma moves_past (x y : Match) :
  (zero <? SortCompare by_similarity x y)%float = (similarity x <? similarity y)%float.
Proof.
  unfold SortCompare, by_similarity.
  rewrite <- (sub_sign_pos (similarity x) (similarity y)).
  destruct (is_nan (similarity y - similarity x)) eqn:E; [| reflexivity].
  destruct (zero <? similarity y - similarity x)%float eqn:F; [| reflexivity].
  apply ltb_nan_r in F. congruence.
Qed.

Lemma ranked_before_step (x y z : Match) :
  (similarity x <? similarity y)%float = false ->
  not_nan x -> not_nan y -> (index x < index z)%nat ->
  ranked_before y z -> ranked_before x z.
Proof.
  unfold ranked_before, not_nan. intros Hxy Hx Hy Hi [Hzy | [Hzy _]];
    destruct (ltb_total _ _ Hx Hy Hxy) as [Hyx | Hyx].
  - left. eapply ltb_trans; eassumption.
  - left. eapply ltb_eqb_trans; eassumption.
  - left. eapply eqb_ltb_trans; eassumption.
  - right. split; [eapply eqb_trans; eassumption | assumption].
Qed.

Lemma insert_ranked (x : Match) (l : list Match) :
  not_nan x -> Forall not_nan l ->
  Forall (fun y => (index x < index y)%nat) l ->
  StronglySorted ranked_before l ->
  StronglySorted ranked_before (insert by_similarity x l).
Proof.
  intros Hx. induction l as [| y l IH]; intros Hl Hi Hs; cbn [insert].
  - repeat constructor.
  - rewrite moves_past.
    apply Forall_cons_iff in Hl as [Hy Hl], Hi as [Hiy Hi].
    apply StronglySorted_inv in Hs as [Hs Hyl].
    destruct (similarity x <? similarity y)%float eqn:E.
    + constructor; [apply IH; assumption |].
      apply insert_Forall. split; [left; exact E | assumption].
    + constructor; [constructor; assumption |].
      constructor.
      * destruct (ltb_total _ _ Hx Hy E) as [H | H]; [left | right]; auto.
      * rewrite Forall_forall in *. intros z Hz.
        eapply ranked_before_step; eauto.
Qed.

Lemma sort_ranked (l : list Match) :
  Forall not_nan l ->
  StronglySorted (fun a b => (index a < index b)%nat) l ->
  StronglySorted ranked_before (sort by_similarity l).
Proof.
  induction l as [| x l IH]; intros Hl Hs; cbn [sort].
  - constructor.
  - apply Forall_cons_iff in Hl as [Hx Hl].
    apply StronglySorted_inv in Hs as [Hs Hxl].
    apply insert_ranked; auto; apply sort_Forall; assumption.
Qed.

Lemma mapi_from_index_ge (i : nat) (sims : list number) :
  Forall (fun m => (i <= index m)%nat) (mapi_from make_match i sims).
Proof.
  revert i. induction sims as [| s sims IH]; intros i; cbn; constructor.
  - cbn. lia.
  - eapply Forall_impl; [| apply (IH (S i))]. cbn. intros; lia.
Qed.

Lemma mapi_from_index_sorted (i : nat) (sims : list number) :
  StronglySorted (fun a b => (index a < index b)%nat) (mapi_from make_match i sims).
Proof.
  revert i. induction sims as [| s sims IH]; intros i; cbn; constructor.
  - apply IH.
  - eapply Forall_impl; [| apply (mapi_from_index_ge (S i))]. cbn. intros; lia.
Qed.

Lemma mapi_from_not_nan (i : nat) (sims : list number) :
  Forall (fun s => is_nan s = false) sims ->
  Forall not_nan (mapi_from make_match i sims).
Proof.
  intros H. revert i. induction H as [| s sims Hs _ IH]; intros i; cbn; constructor; auto.
Qed.

Lemma ranking_length (sims : list number) :
  List.length (ranking sims) = List.length sims.
Proof. unfold ranking, mapi. rewrite sort_length, mapi_from_length. reflexivity. Qed.

Lemma ranking_ranked (sims : list number) :
  Forall (fun s => is_nan s = false) sims ->
  StronglySorted ranked_before (ranking sims).
Proof.
  intros H. apply sort_ranked.
  - apply mapi_from_not_nan. assumption.
  - apply mapi_from_index_sorted.
Qed.

(** *** The ranking does not depend on the sorting algorithm

    The language asks of [sort] that the result holds the same elements,
    ordered as the comparator says, with ties left in their original order.
    When no similarity is NaN there is exactly one such list, so every
    conforming engine returns [ranking sims]. *)

Lemma insert_Permutation {A : Type} (c : A -> A -> number) (x : A) (l : list A) :
  Permutation (insert c x l) (x :: l).
Proof.
  induction l as [| y l IH]; cbn [insert]; [reflexivity |].
  case_if; [| reflexivity].
  rewrite IH. apply perm_swap.
Qed.

Lemma sort_Permutation {A : Type} (c : A -> A -> number) (l : list A) :
  Permutation (sort c l) l.
Proof.
  induction l as [| x l IH]; cbn [sort]; [reflexivity |].
  rewrite insert_Permutation. now constructor.
Qed.

Lemma StronglySorted_unique {A : Type} (R : A -> A -> Prop) :
  (forall a b, R a b -> R b a -> False) ->
  forall l1 l2 : list A,
    StronglySorted R l1 -> StronglySorted R l2 -> Permutation l1 l2 -> l1 = l2.
Proof.
  intros Hasym l1. induction l1 as [| a l1 IH]; intros l2 S1 S2 P.
  - apply Permutation_nil in P. congruence.
  - destruct l2 as [| b l2]; [apply Permutation_sym, Permutation_nil in P; discriminate |].
    apply StronglySorted_inv in S1 as [S1 F1], S2 as [S2 F2].
    rewrite Forall_forall in F1, F2.
    assert (E : a = b).
    { assert (Ha : In a (b :: l2)) by (eapply Permutation_in; [exact P | now left]).
      assert (Hb : In b (a :: l1))
        by (eapply Permutation_in; [exact (Permutation_sym P) | now left]).
      destruct Ha as [Ha | Ha]; [congruence |].
      destruct Hb as [Hb | Hb]; [congruence |].
      exfalso. eapply Hasym; [apply F1, Hb | apply F2, Ha]. }
    subst b. f_equal. apply IH; auto.
    eapply Permutation_cons_inv; exact P.
Qed.

Lemma ranked_before_asym (a b : Match) : ranked_before a b -> ranked_before b a -> False.
Proof.
  unfold ranked_before. intros [H1 | [H1 I1]] [H2 | [H2 I2]].
  - apply ltb_asym in H1. congruence.
  - apply ltb_not_eqb in H1. congruence.
  - apply ltb_not_eqb in H2. congruence.
  - lia.
Qed.

Lemma ranking_unique (sims : list number) (l : list Match) :
  Forall (fun s => is_nan s = false) sims ->
  Permutation l (mapi make_match sims) ->
  StronglySorted ranked_before l ->
  l = ranking sims.
Proof.
  intros Hn P S.
  apply (StronglySorted_unique ranked_before ranked_before_asym); auto.
  - now apply ranking_ranked.
  - rewrite P. symmetry. apply sort_Permutation.
Qed.

Lemma findBestMatches_unfold cos_sim (q : Tensor) (catalog : list item_value) (top_k : option Z) :
  findBestMatches cos_sim q catalog top_k =
  (sims <- map_throwing (item_similarity cos_sim q) catalog ;;
   Ok (slice (ranking sims) 0 (match top_k with Some k => k | None => 3%Z end))).
Proof. reflexivity. Qed.

(** *** Well-formed catalogs *)

Lemma well_formed_similarity cos_sim (q : Tensor) (item : item_value) :
  well_formed item = true -> exists s, item_similarity cos_sim q item = Ok s.
Proof.
  destruct item as [[[t |] [i |] ty] |]; cbn; try discriminate; intros H.
  - rewrite H. eauto.
  - apply String.eqb_eq in H. subst ty. cbn. eauto.
  - apply String.eqb_eq in H. subst ty. cbn. eauto.
Qed.

Lemma well_formed_similarities cos_sim (q : Tensor) (catalog : list item_value) :
  forallb well_formed catalog = true ->
  exists sims, map_throwing (item_similarity cos_sim q) catalog = Ok sims.
Proof.
  intros H. apply map_throwing_total.
  rewrite forallb_forall in H. apply Forall_forall. intros item Hin.
  apply well_formed_similarity. auto.
Qed.

Lemma scores_are_numbers_spec cos_sim (q : Tensor) (catalog : list item_value) (sims : list number) :
  scores_are_numbers cos_sim q catalog = true ->
  map_throwing (item_similarity cos_sim q) catalog = Ok sims ->
  Forall (fun s => is_nan s = false) sims.
Proof.
  unfold scores_are_numbers. revert sims.
  induction catalog as [| item catalog IH]; intros sims H E; cbn in *.
  - injection E as <-. constructor.
  - apply andb_true_iff in H as [H1 H2].
    destruct (item_similarity cos_sim q item) as [s | e]; cbn in E; [| discriminate].
    destruct (map_throwing (item_similarity cos_sim q) catalog) as [sims' | e];
      cbn in E; [| discriminate].
    injection E as <-. constructor; [| apply IH; auto].
    now apply negb_true_iff in H1.
Qed.

(** ** Part VII. The scorer and the ranker *)

(** *** [Math.max] on numbers *)

Lemma Prim2SF_zero (x : number) :
  is_nan x = false -> is_zero x = true -> Prim2SF x = S754_zero (get_sign x).
Proof. intros Hn Hz. unfold Prim2SF. rewrite Hn, Hz. reflexivity. Qed.

Lemma is_pos_zero_eq (x : number) :
  is_nan x = false -> is_pos_zero x = true -> x = zero.
Proof.
  unfold is_pos_zero. intros Hn H. apply andb_true_iff in H as [Hz Hs].
  apply negb_true_iff in Hs. apply Prim2SF_inj.
  rewrite (Prim2SF_zero x Hn Hz), Hs. reflexivity.
Qed.

Lemma not_above_neg_infinity (x : number) :
  is_nan x = false -> (neg_infinity <? x)%float = false -> x = neg_infinity.
Proof.
  intros Hn H.
  assert (Hi : is_nan neg_infinity = false) by reflexivity.
  destruct (ltb_total _ _ Hi Hn H) as [L | E].
  - apply ltb_key in L as (_ & _ & L). unfold key_lt in L.
    change (Prim2SF neg_infinity) with (S754_infinity true) in L.
    destruct (Prim2SF x) as [[] | [] | | [] m e]; cbn in L; lia.
  - apply eqb_key in E as (_ & _ & E). unfold key_eq in E.
    change (Prim2SF neg_infinity) with (S754_infinity true) in E.
    apply Prim2SF_inj. change (Prim2SF neg_infinity) with (S754_infinity true).
    destruct (Prim2SF x) as [[] | [] | | [] m e]; cbn in E; try lia. reflexivity.
Qed.

Lemma max_step_first (x : number) :
  is_nan x = false -> max_step neg_infinity x = x.
Proof.
  intros Hn. unfold max_step.
  replace (is_pos_zero x && is_neg_zero neg_infinity) with false
    by (symmetry; apply andb_false_r).
  destruct (neg_infinity <? x)%float eqn:E; [reflexivity |].
  symmetry. now apply not_above_neg_infinity.
Qed.

(** On numbers, [Math.max] returns one of its arguments, and it is at
    least as large as both. *)
Lemma Math_max_is_max (a b : number) :
  is_nan a = false -> is_nan b = false ->
  (a <=? Math_max a b)%float = true /\ (b <=? Math_max a b)%float = true /\
  (Math_max a b = a \/ Math_max a b = b).
Proof.
  intros Ha Hb. unfold Math_max. rewrite Ha, Hb. cbn [orb].
  rewrite (max_step_first a Ha). unfold max_step.
  destruct (is_pos_zero b && is_neg_zero a) eqn:Z.
  - apply andb_true_iff in Z as [Zb Za].
    apply (is_pos_zero_eq b Hb) in Zb. subst b.
    change (zero <? zero)%float with false. cbv iota.
    unfold is_neg_zero, is_zero in Za. apply andb_true_iff in Za as [Za _].
    split; [| split]; [| | now right]; apply leb_true; right; auto.
  - destruct (a <? b)%float eqn:L.
    + split; [| split]; [| | now right]; apply leb_true;
        [now left | right; now apply eqb_refl].
    + split; [| split]; [| | now left]; apply leb_true;
        [right; now apply eqb_refl |].
      destruct (ltb_total _ _ Ha Hb L); auto.
Qed.

(** C1. For every query embedding and every embedded item, the score
    computed by [findBestMatches] is: for an item of type 'text', the
    cosine of the query and the text embedding; for an item of type
    'image', the cosine of the query and the image embedding; for an item
    of type 'both', [Math.max] of the two cosines, which for cosines that
    are numbers is one of the two and at least as large as both. *)
Theorem score_by_kind cos_sim (q t i : Tensor) (other : option Tensor) :
  let ct := cos_sim (data q) (data t) in
  let ci := cos_sim (data q) (data i) in
  item_similarity cos_sim q
    (Some {| text_embed := Some t; image_embed := other; type := "text" |}) = Ok ct /\
  item_similarity cos_sim q
    (Some {| text_embed := other; image_embed := Some i; type := "image" |}) = Ok ci /\
  item_similarity cos_sim q
    (Some {| text_embed := Some t; image_embed := Some i; type := "both" |})
    = Ok (Math_max ct ci) /\
  (is_nan ct = false -> is_nan ci = false ->
   (ct <=? Math_max ct ci)%float = true /\ (ci <=? Math_max ct ci)%float = true /\
   (Math_max ct ci = ct \/ Math_max ct ci = ci)).
Proof.
  intros ct ci. split; [| split; [| split]]; try reflexivity.
  apply Math_max_is_max.
Qed.

(** Every match returned by [findBestMatches] carries the score of the
    catalog item at its index. *)
Lemma matches_carry_scores cos_sim (q : Tensor) (catalog : list item_value)
    (top_k : option Z) (ms : list Match) (m : Match) :
  findBestMatches cos_sim q catalog top_k = Ok ms -> In m ms ->
  exists item, nth_error catalog (index m) = Some item /\
               item_similarity cos_sim q item = Ok (similarity m).
Proof.
  rewrite findBestMatches_unfold. intros H Hm.
  destruct (map_throwing (item_similarity cos_sim q) catalog) as [sims | e] eqn:E;
    cbn in H; [| discriminate].
  injection H as <-. rewrite slice_from_0 in Hm.
  apply In_firstn in Hm.
  assert (Hall : Forall (fun m => nth_error sims (index m) = Some (similarity m))
                        (ranking sims)).
  { apply sort_Forall. apply Forall_forall. intros x Hx.
    apply In_nth_error in Hx as [j Hj].
    apply mapi_from_nth in Hj as (s & Hs & ->). cbn. exact Hs. }
  rewrite Forall_forall in Hall. apply Hall in Hm.
  eapply map_throwing_nth; eassumption.
Qed.

(** C4. For every query, well-formed catalog whose scores are numbers, and
    [top_k > 0], [findBestMatches] returns its matches by non-increasing
    similarity: each match's similarity is at least the next one's. *)
Theorem matches_sorted_by_similarity cos_sim (q : Tensor) (catalog : list item_value) (k : Z) :
  (0 < k)%Z ->
  forallb well_formed catalog = true ->
  scores_are_numbers cos_sim q catalog = true ->
  exists ms, findBestMatches cos_sim q catalog (Some k) = Ok ms /\
    forall (i : nat) (a b : Match),
      nth_error ms i = Some a -> nth_error ms (S i) = Some b ->
      (similarity b <=? similarity a)%float = true.
Proof.
  intros Hk Hwf Hnum. rewrite findBestMatches_unfold.
  destruct (well_formed_similarities cos_sim q catalog Hwf) as [sims E].
  rewrite E. cbn [bind]. eexists; split; [reflexivity |].
  intros i a b Ha Hb. rewrite slice_from_0 in Ha, Hb.
  pose proof (scores_are_numbers_spec _ _ _ _ Hnum E) as Hn.
  pose proof (StronglySorted_firstn _ (Z.to_nat (if (k <? 0)%Z
      then Z.max (Z.of_nat (List.length (ranking sims)) + k) 0
      else Z.min k (Z.of_nat (List.length (ranking sims))))) _ (ranking_ranked sims Hn)) as Hs.
  assert (R : ranked_before a b).
  { eapply (StronglySorted_nth _ _ Hs i (S i)); [lia | eassumption | eassumption]. }
  apply leb_true. destruct R as [R | [R _]]; auto.
Qed.

(** C5. For every query and well-formed catalog whose scores are numbers,
    two returned matches with equal similarities appear in the order of
    their catalog indices: the smaller index comes first. *)
Theorem equal_scores_keep_catalog_order cos_sim (q : Tensor) (catalog : list item_value)
    (top_k : option Z) :
  forallb well_formed catalog = true ->
  scores_are_numbers cos_sim q catalog = true ->
  exists ms, findBestMatches cos_sim q catalog top_k = Ok ms /\
    forall (i j : nat) (a b : Match),
      (i < j)%nat -> nth_error ms i = Some a -> nth_error ms j = Some b ->
      (similarity a =? similarity b)%float = true ->
      (index a < index b)%nat.
Proof.
  intros Hwf Hnum. rewrite findBestMatches_unfold.
  destruct (well_formed_similarities cos_sim q catalog Hwf) as [sims E].
  rewrite E. cbn [bind]. eexists; split; [reflexivity |].
  intros i j a b Hij Ha Hb Heq. rewrite slice_from_0 in Ha, Hb.
  pose proof (scores_are_numbers_spec _ _ _ _ Hnum E) as Hn.
  match type of Ha with nth_error (firstn ?n _) _ = _ =>
    pose proof (StronglySorted_firstn _ n _ (ranking_ranked sims Hn)) as Hs end.
  destruct (StronglySorted_nth _ _ Hs i j a b Hij Ha Hb) as [R | [_ R]]; [| exact R].
  apply ltb_not_eqb in R. congruence.
Qed.

(** C6. For every query, well-formed catalog and [top_k > 0],
    [findBestMatches] returns exactly min(top_k, catalog length) matches;
    on the empty catalog it returns the empty array, not an error. *)
Theorem matches_count cos_sim (q : Tensor) (catalog : list item_value) (k : Z) :
  (0 < k)%Z ->
  forallb well_formed catalog = true ->
  (exists ms, findBestMatches cos_sim q catalog (Some k) = Ok ms /\
     List.length ms = Nat.min (Z.to_nat k) (List.length catalog)) /\
  findBestMatches cos_sim q [] (Some k) = Ok [].
Proof.
  intros Hk Hwf. split.
  - rewrite findBestMatches_unfold.
    destruct (well_formed_similarities cos_sim q catalog Hwf) as [sims E].
    rewrite E. cbn [bind]. eexists; split; [reflexivity |].
    rewrite slice_from_0, length_firstn, ranking_length.
    rewrite (map_throwing_length _ _ _ E).
    destruct (k <? 0)%Z eqn:F; [apply Z.ltb_lt in F; lia | lia].
  - rewrite findBestMatches_unfold. cbn [map_throwing bind].
    rewrite slice_from_0. cbn [ranking mapi mapi_from sort List.length].
    rewrite firstn_nil. reflexivity.
Qed.

(** C10. Called without [top_k], [findBestMatches] behaves as with
    [top_k = 3]: for every query and well-formed catalog it returns exactly
    min(3, catalog length) matches. *)
Theorem default_top_k cos_sim (q : Tensor) (catalog : list item_value) :
  forallb well_formed catalog = true ->
  findBestMatches cos_sim q catalog None = findBestMatches cos_sim q catalog (Some 3%Z) /\
  exists ms, findBestMatches cos_sim q catalog None = Ok ms /\
    List.length ms = Nat.min 3 (List.length catalog).
Proof.
  intros Hwf. split; [reflexivity |].
  rewrite findBestMatches_unfold.
  destruct (well_formed_similarities cos_sim q catalog Hwf) as [sims E].
  rewrite E. cbn [bind]. eexists; split; [reflexivity |].
  rewrite slice_from_0, length_firstn, ranking_length.
  rewrite (map_throwing_length _ _ _ E). cbn [Z.ltb Z.compare]. lia.
Qed.

(** C2 (as amended). For [top_k <= 0] and a well-formed catalog,
    [findBestMatches] does not fail: [slice(0, top_k)] returns the empty
    array for [top_k = 0], and for a negative [top_k] the ranking without
    its last [-top_k] entries (empty when there are not that many). *)
Theorem nonpositive_top_k cos_sim (q : Tensor) (catalog : list item_value) (k : Z) :
  (k <= 0)%Z ->
  forallb well_formed catalog = true ->
  exists sims, map_throwing (item_similarity cos_sim q) catalog = Ok sims /\
    findBestMatches cos_sim q catalog (Some k) =
      Ok (firstn (if (k =? 0)%Z then 0 else List.length catalog - Z.to_nat (- k))
                 (ranking sims)).
Proof.
  intros Hk Hwf. rewrite findBestMatches_unfold.
  destruct (well_formed_similarities cos_sim q catalog Hwf) as [sims E].
  exists sims. split; [exact E |]. rewrite E. cbn [bind].
  rewrite slice_from_0, ranking_length, (map_throwing_length _ _ _ E).
  do 2 f_equal.
  destruct (Z.eqb_spec k 0) as [-> | Hne]; [cbn [Z.ltb Z.compare]; lia |].
  destruct (k <? 0)%Z eqn:F; [| apply Z.ltb_ge in F]; lia.
Qed.

(** C2, as stated, fails: with [top_k = -1] the call returns three of the
    four matches of the demo catalog, and with [top_k = 0] the empty
    array; no exception is thrown. *)
Lemma nonpositive_top_k_does_not_throw :
  ~ (forall cos_sim (q : Tensor) (catalog : list item_value) (k : Z),
       (k <= 0)%Z -> exists e, findBestMatches cos_sim q catalog (Some k) = Throw e).
Proof.
  intros H.
  destruct (H Demo.cosine Demo.east Demo.catalog (-1)%Z) as [e He]; [lia |].
  vm_compute in He. discriminate.
Qed.

(** ** Part VIII. The item embedder *)

Lemma Promise_all_Forall2 {A : Type} (l : list (result A)) (vs : list A) :
  Promise_all l = Some vs <-> Forall2 (fun r v => r = Ok v) l vs.
Proof.
  revert vs. induction l as [| r l IH]; intros vs; cbn.
  - split; [intros [= <-]; constructor | intros H; inversion H; reflexivity].
  - destruct r as [a | e].
    + destruct (Promise_all l) as [vs' |] eqn:E.
      * split.
        -- intros [= <-]. constructor; [reflexivity | now apply IH].
        -- intros H. inversion H as [| ? v ? vs'' Hv Hl]; subst.
           injection Hv as <-. apply IH in Hl. congruence.
      * split; [discriminate |].
        intros H. inversion H as [| ? v ? vs'' Hv Hl]; subst.
        apply IH in Hl. discriminate.
    + split; [discriminate |].
      intros H. inversion H as [| ? v ? vs'' Hv Hl]; subst. discriminate.
Qed.

Lemma providers_succeed_embed getT getI (item : CatalogItem) :
  providers_succeed getT getI item = true ->
  exists v, embed_item getT getI item = Ok v /\
    (truthy (text item) && truthy (image item) = true ->
     exists t i, getT (string_of (text item)) = Ok t /\
                 getI (string_of (image item)) = Ok i /\
                 v = Some {| text_embed := Some t; image_embed := Some i; type := "both" |}).
Proof.
  unfold providers_succeed, embed_item. intros H.
  apply andb_true_iff in H as [H1 H2].
  destruct (truthy (text item)), (truthy (image item)); cbn [andb].
  - destruct (getT _) as [t |]; [| discriminate].
    destruct (getI _) as [i |]; [| discriminate].
    cbn. eexists; split; [reflexivity |]. intros _. eauto.
  - destruct (getT _) as [t |]; [| discriminate].
    cbn. eexists; split; [reflexivity | discriminate].
  - destruct (getI _) as [i |]; [| discriminate].
    cbn. eexists; split; [reflexivity | discriminate].
  - eexists; split; [reflexivity | discriminate].
Qed.

(** C7. For every sequence of catalog items whose embedding calls succeed,
    [processSearchableItems] is fulfilled with an array of the same length
    in which entry [i] is the embedding of item [i]; and for an item whose
    text and image are both present, both embeddings are computed and the
    entry has type 'both'. *)
Theorem embedding_preserves_order getT getI (items : list CatalogItem) :
  forallb (providers_succeed getT getI) items = true ->
  exists res, processSearchableItems getT getI items = Some res /\
    List.length res = List.length items /\
    forall (i : nat) (item : CatalogItem), nth_error items i = Some item ->
      exists v, nth_error res i = Some v /\
        embed_item getT getI item = Ok v /\
        (truthy (text item) && truthy (image item) = true ->
         exists t im, getT (string_of (text item)) = Ok t /\
                      getI (string_of (image item)) = Ok im /\
                      v = Some {| text_embed := Some t; image_embed := Some im;
                                  type := "both" |}).
Proof.
  unfold processSearchableItems.
  induction items as [| item items IH]; intros H; cbn [forallb map Promise_all] in *.
  - exists []. repeat split. intros [| i] item H'; discriminate.
  - apply andb_true_iff in H as [H1 H2].
    destruct (IH H2) as (res & E & Hlen & Hnth).
    destruct (providers_succeed_embed _ _ _ H1) as (v & Ev & Hboth).
    rewrite Ev, E. exists (v :: res). repeat split; [cbn; lia |].
    intros [| i] item' Hi; cbn in Hi.
    + injection Hi as <-. exists v. auto.
    + apply Hnth. exact Hi.
Qed.

(** What the embedder produces for an item that has a text or an image is
    a well-formed embedded item: the catalogs that the ranker is given. *)
Lemma embedded_items_well_formed getT getI (items : list CatalogItem) (res : list item_value) :
  processSearchableItems getT getI items = Some res ->
  forallb (fun item => truthy (text item) || truthy (image item)) items = true ->
  forallb well_formed res = true.
Proof.
  unfold processSearchableItems. intros H. apply Promise_all_Forall2 in H.
  remember (map (embed_item getT getI) items) as rs eqn:E.
  revert items E. induction H as [| r v rs vs Hr _ IH]; intros items E Hp.
  - reflexivity.
  - destruct items as [| item items]; [discriminate |].
    cbn [map] in E. injection E as E1 E2. cbn [forallb] in *.
    apply andb_true_iff in Hp as [Hp1 Hp2].
    rewrite (IH items E2 Hp2), andb_true_r.
    rewrite E1 in Hr. clear E1. unfold embed_item in Hr.
    destruct (truthy (text item)), (truthy (image item)); cbn [andb orb] in *;
      try discriminate;
      repeat match type of Hr with
             | context [bind ?r _] => destruct r; cbn [bind] in Hr; [| discriminate]
             end;
      injection Hr as <-; reflexivity.
Qed.

(** C3, on the code: an item with neither text nor image does not abort
    the load.  Its slot is filled with [undefined], whatever the embedding
    pipelines are, and ranking that catalog then throws a [TypeError]. *)
Theorem item_without_fields_is_undefined getT getI cos_sim (q : Tensor) (top_k : option Z) :
  processSearchableItems getT getI [ {| text := None; image := None |} ] = Some [None] /\
  findBestMatches cos_sim q [None] top_k = Throw TypeError.
Proof. split; reflexivity. Qed.

(** ** Part IX. The ranker on the store *)

(** *** Reads survive allocation *)

Lemma deref_app (h t : heap) (v : value) (o : object) :
  deref h v = Some o -> deref (h ++ t) v = Some o.
Proof.
  destruct v as [| x | l]; cbn; try discriminate. intros H.
  rewrite nth_error_app1; [assumption |].
  apply nth_error_Some. congruence.
Qed.

Lemma read_tensor_app (h t : heap) (v : value) (x : Tensor) :
  read_tensor h v = Some x -> read_tensor (h ++ t) v = Some x.
Proof.
  unfold read_tensor. destruct (deref h v) as [o |] eqn:E; [| discriminate].
  rewrite (deref_app _ t _ _ E). auto.
Qed.

Lemma read_property_app (h t : heap) (v : value) (x : option Tensor) :
  read_property h v = Some x -> read_property (h ++ t) v = Some x.
Proof.
  unfold read_property. destruct v as [| n | l]; auto;
    destruct (read_tensor h _) as [y |] eqn:E; try discriminate;
    rewrite (read_tensor_app _ t _ _ E); auto.
Qed.

Lemma read_item_app (h t : heap) (v : value) (x : item_value) :
  read_item h v = Some x -> read_item (h ++ t) v = Some x.
Proof.
  unfold read_item. destruct v as [| n | l]; auto.
  destruct (deref h (VRef l)) as [[d | te ie ty | i s | es] |] eqn:E; try discriminate.
  rewrite (deref_app _ t _ _ E).
  destruct (read_property h te) as [a |] eqn:E1; [| discriminate].
  destruct (read_property h ie) as [b |] eqn:E2; [| discriminate].
  rewrite (read_property_app _ t _ _ E1), (read_property_app _ t _ _ E2). auto.
Qed.

Lemma read_match_app (h t : heap) (v : value) (x : Match) :
  read_match h v = Some x -> read_match (h ++ t) v = Some x.
Proof.
  unfold read_match. destruct (deref h v) as [o |] eqn:E; [| discriminate].
  rewrite (deref_app _ t _ _ E). auto.
Qed.

Lemma read_all_ext {A : Type} (rd rd' : value -> option A) (vs : list value) (xs : list A) :
  (forall v x, rd v = Some x -> rd' v = Some x) ->
  read_all rd vs = Some xs -> read_all rd' vs = Some xs.
Proof.
  intros Hrd. revert xs. induction vs as [| v vs IH]; intros xs H; cbn in *; [assumption |].
  destruct (rd v) as [a |] eqn:E; [| discriminate].
  destruct (read_all rd vs) as [l |]; [| discriminate].
  rewrite (Hrd _ _ E), (IH l eq_refl). assumption.
Qed.

Lemma read_array_app {A : Type} (rd : heap -> value -> option A) (h t : heap)
    (v : value) (xs : list A) :
  (forall v x, rd h v = Some x -> rd (h ++ t) v = Some x) ->
  read_array rd h v = Some xs -> read_array rd (h ++ t) v = Some xs.
Proof.
  intros Hrd. unfold read_array.
  destruct (deref h v) as [[d | te ie ty | i s | es] |] eqn:E; try discriminate.
  rewrite (deref_app _ t _ _ E). apply read_all_ext. assumption.
Qed.

Lemma read_catalog_app (h t : heap) (v : value) (xs : list item_value) :
  read_catalog h v = Some xs -> read_catalog (h ++ t) v = Some xs.
Proof. apply read_array_app. intros; now apply read_item_app. Qed.

Lemma read_matches_app (h t : heap) (v : value) (xs : list Match) :
  read_matches h v = Some xs -> read_matches (h ++ t) v = Some xs.
Proof. apply read_array_app. intros; now apply read_match_app. Qed.

(** *** The store-level function computes the pure one *)

Lemma mbind_ok {A B : Type} (m : M A) (k : A -> M B) (h h' : heap) (a : A) :
  m h = (Ok a, h') -> mbind m k h = k a h'.
Proof. unfold mbind. intros ->. reflexivity. Qed.

Lemma mbind_throw {A B : Type} (m : M A) (k : A -> M B) (h h' : heap) (e : exn) :
  m h = (Throw e, h') -> mbind m k h = (Throw e, h').
Proof. unfold mbind. intros ->. reflexivity. Qed.

Lemma get_data_tensor (h : heap) (v : value) (t : Tensor) :
  read_tensor h v = Some t -> get_data v h = (Ok (data t), h).
Proof.
  unfold read_tensor, get_data.
  destruct (deref h v) as [[d | te ie ty | i s | es] |]; try discriminate.
  intros [= <-]. reflexivity.
Qed.

Lemma get_data_property (h : heap) (v : value) (t : option Tensor) :
  read_property h v = Some t -> get_data v h = (data_of t, h).
Proof.
  unfold read_property. destruct v as [| x | l].
  - intros [= <-]. reflexivity.
  - cbn. discriminate.
  - destruct (read_tensor h (VRef l)) as [y |] eqn:E; cbn; [| discriminate].
    intros [= <-]. now apply get_data_tensor.
Qed.

Lemma item_similarity_sim cos_sim (h : heap) (q v : value) (query : Tensor) (item : item_value) :
  read_tensor h q = Some query -> read_item h v = Some item ->
  OnStore.item_similarity cos_sim q v h = (item_similarity cos_sim query item, h).
Proof.
  intros Hq Hv. unfold OnStore.item_similarity, get_item, read_item in *.
  destruct v as [| x | l].
  - injection Hv as <-. reflexivity.
  - cbn in Hv. discriminate.
  - unfold mbind at 1.
    destruct (deref h (VRef l)) as [[d | te ie ty | i s | es] |]; try discriminate.
    destruct (read_property h te) as [t |] eqn:Et; [| discriminate].
    destruct (read_property h ie) as [i |] eqn:Ei; [| discriminate].
    injection Hv as <-. cbn [item_similarity type text_embed image_embed].
    apply get_data_tensor in Hq. apply get_data_property in Et, Ei.
    destruct (ty =? "both")%string; [| destruct (ty =? "text")%string];
      rewrite (mbind_ok _ _ _ _ _ Hq).
    + destruct t as [t |]; cbn [data_of] in Et;
        [rewrite (mbind_ok _ _ _ _ _ Et) | now rewrite (mbind_throw _ _ _ _ _ Et)].
      destruct i as [i |]; cbn [data_of] in Ei;
        [rewrite (mbind_ok _ _ _ _ _ Ei) | now rewrite (mbind_throw _ _ _ _ _ Ei)].
      reflexivity.
    + destruct t as [t |]; cbn [data_of] in Et;
        [rewrite (mbind_ok _ _ _ _ _ Et) | now rewrite (mbind_throw _ _ _ _ _ Et)].
      reflexivity.
    + destruct i as [i |]; cbn [data_of] in Ei;
        [rewrite (mbind_ok _ _ _ _ _ Ei) | now rewrite (mbind_throw _ _ _ _ _ Ei)].
      reflexivity.
Qed.

Lemma score_all_sim cos_sim (h : heap) (q : value) (query : Tensor)
    (elems : list value) (catalog : list item_value) (i : nat) :
  read_tensor h q = Some query ->
  read_all (read_item h) elems = Some catalog ->
  mapi_M (fun item _ => s <~ OnStore.item_similarity cos_sim q item ;; ret (VNumber s)) i elems h
  = (lift_numbers (map_throwing (item_similarity cos_sim query) catalog), h).
Proof.
  intros Hq. revert catalog i.
  induction elems as [| v elems IH]; intros catalog i H; cbn [read_all] in H.
  - injection H as <-. reflexivity.
  - destruct (read_item h v) as [item |] eqn:Ev; [| discriminate].
    destruct (read_all (read_item h) elems) as [rest |] eqn:Er; [| discriminate].
    injection H as <-. cbn [mapi_M map_throwing].
    pose proof (item_similarity_sim cos_sim h q v query item Hq Ev) as Hs.
    specialize (IH rest (S i) eq_refl).
    unfold mbind at 1. unfold mbind at 1. rewrite Hs.
    destruct (item_similarity cos_sim query item) as [s | e]; cbn [bind ret]; [| reflexivity].
    unfold mbind at 1. rewrite IH.
    destruct (map_throwing (item_similarity cos_sim query) rest) as [sims | e];
      reflexivity.
Qed.

Lemma alloc_matches_run (vs : list value) : forall (i : nat) (h : heap),
  mapi_M (fun similarity index => alloc (OMatch index similarity)) i vs h
  = (Ok (map VRef (seq (List.length h) (List.length vs))),
     h ++ mapi_from match_object i vs).
Proof.
  induction vs as [| v vs IH]; intros i h; cbn [mapi_M mapi_from List.length seq map].
  - unfold ret. rewrite app_nil_r. reflexivity.
  - unfold mbind at 1. unfold alloc at 1.
    unfold mbind at 1. rewrite IH. unfold ret.
    rewrite length_app, <- app_assoc. cbn [List.length app].
    rewrite Nat.add_1_r. reflexivity.
Qed.

Lemma read_fresh_matches (sims : list number) : forall (i : nat) (h t : heap),
  read_all (read_match (h ++ mapi_from match_object i (map VNumber sims) ++ t))
           (map VRef (seq (List.length h) (List.length sims)))
  = Some (mapi_from make_match i sims).
Proof.
  induction sims as [| s sims IH]; intros i h t; [reflexivity |].
  cbn [map mapi_from List.length seq read_all].
  assert (E : read_match (h ++ (match_object (VNumber s) i
                 :: mapi_from match_object (S i) (map VNumber sims)) ++ t)
                (VRef (List.length h)) = Some (make_match s i)).
  { unfold read_match, deref. rewrite nth_error_app2, Nat.sub_diag by lia. reflexivity. }
  rewrite E.
  specialize (IH (S i) (h ++ [match_object (VNumber s) i]) t).
  rewrite length_app, Nat.add_1_r, <- app_assoc in IH. cbn [List.length app] in IH.
  cbn [app]. rewrite IH. reflexivity.
Qed.

Lemma by_similarity_sim (h t : heap) (a b : value) (ma mb : Match) :
  read_match h a = Some ma -> read_match h b = Some mb ->
  OnStore.by_similarity a b (h ++ t) = (Ok (by_similarity ma mb), h ++ t).
Proof.
  intros Ha Hb. apply (read_match_app _ t) in Ha, Hb.
  unfold read_match in Ha, Hb. unfold OnStore.by_similarity, get_similarity, mbind.
  destruct a as [| x | la]; try discriminate; destruct b as [| y | lb]; try discriminate.
  destruct (deref (h ++ t) (VRef la)) as [[| | i [| s |] |] |] eqn:Ea; try discriminate.
  destruct (deref (h ++ t) (VRef lb)) as [[| | j [| s' |] |] |] eqn:Eb; try discriminate.
  injection Ha as <-. injection Hb as <-. cbv beta iota. rewrite Ea. reflexivity.
Qed.

Lemma insert_sim (h t : heap) (x : value) (mx : Match) (l : list value) :
  read_match h x = Some mx ->
  forall ml, read_all (read_match h) l = Some ml ->
  exists l', insert_M OnStore.by_similarity x l (h ++ t) = (Ok l', h ++ t) /\
             read_all (read_match h) l' = Some (insert by_similarity mx ml).
Proof.
  intros Hx. induction l as [| y l IH]; intros ml Hl; cbn [read_all] in Hl.
  - injection Hl as <-. exists [x]. split; [reflexivity |].
    cbn [read_all insert]. rewrite Hx. reflexivity.
  - destruct (read_match h y) as [my |] eqn:Hy; [| discriminate].
    destruct (read_all (read_match h) l) as [ml' |] eqn:Hl'; [| discriminate].
    injection Hl as <-. cbn [insert_M insert].
    rewrite (mbind_ok _ _ _ _ _ (by_similarity_sim h t x y mx my Hx Hy)).
    change (if is_nan (by_similarity mx my) then zero else by_similarity mx my)
      with (SortCompare by_similarity mx my).
    destruct (zero <? SortCompare by_similarity mx my)%float.
    + destruct (IH ml' eq_refl) as (l' & Hrun & Hread).
      exists (y :: l'). split.
      * rewrite (mbind_ok _ _ _ _ _ Hrun). reflexivity.
      * cbn [read_all]. rewrite Hy, Hread. reflexivity.
    + exists (x :: y :: l). split; [reflexivity |].
      cbn [read_all]. rewrite Hx, Hy, Hl'. reflexivity.
Qed.

Lemma sort_sim (h t : heap) (l : list value) :
  forall ml, read_all (read_match h) l = Some ml ->
  exists l', sort_M OnStore.by_similarity l (h ++ t) = (Ok l', h ++ t) /\
             read_all (read_match h) l' = Some (sort by_similarity ml).
Proof.
  induction l as [| x l IH]; intros ml Hl; cbn [read_all] in Hl.
  - injection Hl as <-. exists []. split; reflexivity.
  - destruct (read_match h x) as [mx |] eqn:Hx; [| discriminate].
    destruct (read_all (read_match h) l) as [ml' |] eqn:Hl'; [| discriminate].
    injection Hl as <-. cbn [sort_M sort].
    destruct (IH ml' eq_refl) as (s & Hrun & Hread).
    destruct (insert_sim h t x mx s Hx _ Hread) as (l' & Hrun' & Hread').
    exists l'. split; [| exact Hread'].
    rewrite (mbind_ok _ _ _ _ _ Hrun). exact Hrun'.
Qed.

Lemma read_all_length {A : Type} (rd : value -> option A) (vs : list value) (xs : list A) :
  read_all rd vs = Some xs -> List.length vs = List.length xs.
Proof.
  revert xs. induction vs as [| v vs IH]; intros xs H; cbn in H.
  - injection H as <-. reflexivity.
  - destruct (rd v); [| discriminate].
    destruct (read_all rd vs) as [l |]; [| discriminate].
    injection H as <-. cbn. f_equal. now apply IH.
Qed.

Lemma read_all_firstn {A : Type} (rd : value -> option A) (n : nat) (vs : list value) :
  forall xs, read_all rd vs = Some xs ->
  read_all rd (firstn n vs) = Some (firstn n xs).
Proof.
  revert n. induction vs as [| v vs IH]; intros n xs H; cbn in H.
  - injection H as <-. rewrite !firstn_nil. reflexivity.
  - destruct (rd v) as [a |] eqn:E; [| discriminate].
    destruct (read_all rd vs) as [l |]; [| discriminate].
    injection H as <-. destruct n as [| n]; [reflexivity |].
    cbn [firstn read_all]. rewrite E, (IH n l eq_refl). reflexivity.
Qed.

Lemma read_all_slice {A : Type} (rd : value -> option A) (vs : list value) (k : Z) :
  forall xs, read_all rd vs = Some xs ->
  read_all rd (slice vs 0 k) = Some (slice xs 0 k).
Proof.
  intros xs H. rewrite !slice_from_0, (read_all_length _ _ _ H).
  now apply read_all_firstn.
Qed.

Lemma update_at_end (h t : heap) (o o' : object) :
  update (List.length h) o (h ++ o' :: t) = h ++ o :: t.
Proof. induction h as [| x h IH]; cbn; [reflexivity | now rewrite IH]. Qed.

Lemma nth_error_at_end (h t : heap) (o : object) :
  nth_error (h ++ o :: t) (List.length h) = Some o.
Proof. rewrite nth_error_app2, Nat.sub_diag by lia. reflexivity. Qed.

Lemma get_elems_run (h : heap) (arr : value) (elems : list value) :
  deref h arr = Some (OArray elems) -> get_elems arr h = (Ok elems, h).
Proof. unfold get_elems. intros ->. reflexivity. Qed.

(** The first [map]: the array of similarities, or the callback's exception. *)
Lemma score_array_run cos_sim (h : heap) (q c : value) (query : Tensor)
    (catalog : list item_value) :
  read_tensor h q = Some query -> read_catalog h c = Some catalog ->
  array_map (fun item _ => s <~ OnStore.item_similarity cos_sim q item ;; ret (VNumber s)) c h
  = match map_throwing (item_similarity cos_sim query) catalog with
    | Ok sims => (Ok (VRef (List.length h)), h ++ [OArray (map VNumber sims)])
    | Throw e => (Throw e, h)
    end.
Proof.
  intros Hq Hc. unfold read_catalog, read_array in Hc.
  destruct (deref h c) as [[| | | elems] |] eqn:Ec; try discriminate.
  unfold array_map.
  rewrite (mbind_ok _ _ _ _ _ (get_elems_run _ _ _ Ec)).
  unfold mbind at 1. rewrite (score_all_sim cos_sim h q query elems catalog 0 Hq Hc).
  destruct (map_throwing (item_similarity cos_sim query) catalog); reflexivity.
Qed.

(** The second [map]: one match object per similarity, then the array of
    their references. *)
Lemma pair_array_run (h t : heap) (sims : list number) :
  let h1 := h ++ OArray (map VNumber sims) :: t in
  let refs := map VRef (seq (List.length h1) (List.length sims)) in
  let ha := h1 ++ mapi_from match_object 0 (map VNumber sims) in
  array_map (fun similarity index => alloc (OMatch index similarity)) (VRef (List.length h)) h1
  = (Ok (VRef (List.length ha)), ha ++ [OArray refs]) /\
  read_all (read_match ha) refs = Some (mapi make_match sims).
Proof.
  intros h1 refs ha. split.
  - unfold array_map.
    assert (E : deref h1 (VRef (List.length h)) = Some (OArray (map VNumber sims)))
      by apply nth_error_at_end.
    rewrite (mbind_ok _ _ _ _ _ (get_elems_run _ _ _ E)).
    rewrite (mbind_ok _ _ _ _ _ (alloc_matches_run _ 0 h1)).
    unfold alloc. subst refs ha. rewrite length_map. reflexivity.
  - subst refs ha.
    pose proof (read_fresh_matches sims 0 h1 []) as H.
    rewrite app_nil_r in H. exact H.
Qed.

(** [sort] overwrites the array of references and nothing else. *)
Lemma sort_array_run (ha : heap) (refs : list value) (ml : list Match) :
  read_all (read_match ha) refs = Some ml ->
  exists sorted,
    array_sort OnStore.by_similarity (VRef (List.length ha)) (ha ++ [OArray refs])
    = (Ok (VRef (List.length ha)), ha ++ [OArray sorted]) /\
    read_all (read_match ha) sorted = Some (sort by_similarity ml).
Proof.
  intros H.
  destruct (sort_sim ha [OArray refs] refs ml H) as (sorted & Hrun & Hread).
  exists sorted. split; [| exact Hread].
  unfold array_sort.
  assert (E : deref (ha ++ [OArray refs]) (VRef (List.length ha)) = Some (OArray refs))
    by apply nth_error_at_end.
  rewrite (mbind_ok _ _ _ _ _ (get_elems_run _ _ _ E)).
  rewrite (mbind_ok _ _ _ _ _ Hrun).
  unfold mbind, set_elems, ret. rewrite update_at_end. reflexivity.
Qed.

Lemma slice_array_run (ha : heap) (sorted : list value) (k : Z) :
  array_slice (VRef (List.length ha)) 0 k (ha ++ [OArray sorted])
  = (Ok (VRef (S (List.length ha))),
     ha ++ [OArray sorted; OArray (slice sorted 0 k)]).
Proof.
  unfold array_slice.
  assert (E : deref (ha ++ [OArray sorted]) (VRef (List.length ha)) = Some (OArray sorted))
    by apply nth_error_at_end.
  rewrite (mbind_ok _ _ _ _ _ (get_elems_run _ _ _ E)).
  unfold alloc. rewrite length_app, Nat.add_1_r, <- app_assoc. reflexivity.
Qed.

(** On a store that holds the query tensor and the catalog,
    [OnStore.findBestMatches] only appends to the store, throws exactly
    when [findBestMatches] does, and otherwise returns a new array holding
    the matches that [findBestMatches] computes. *)
Lemma findBestMatches_on_store cos_sim (h : heap) (q c : value) (top_k : option Z)
    (query : Tensor) (catalog : list item_value) :
  read_tensor h q = Some query -> read_catalog h c = Some catalog ->
  exists fresh r,
    OnStore.findBestMatches cos_sim q c top_k h = (r, h ++ fresh) /\
    match findBestMatches cos_sim query catalog top_k with
    | Ok ms => exists v, r = Ok v /\ read_matches (h ++ fresh) v = Some ms
    | Throw e => r = Throw e
    end.
Proof.
  intros Hq Hc. rewrite findBestMatches_unfold. unfold OnStore.findBestMatches.
  set (k := match top_k with Some k => k | None => 3%Z end).
  unfold mbind at 1. rewrite (score_array_run cos_sim h q c query catalog Hq Hc).
  destruct (map_throwing (item_similarity cos_sim query) catalog) as [sims | e];
    cbn [bind]; [| exists [], (Throw e); rewrite app_nil_r; split; reflexivity].
  destruct (pair_array_run h [] sims) as [Hpairs Hread]. cbv zeta in Hpairs, Hread.
  set (h1 := h ++ [OArray (map VNumber sims)]) in *.
  set (ha := h1 ++ mapi_from match_object 0 (map VNumber sims)) in *.
  rewrite (mbind_ok _ _ _ _ _ Hpairs).
  destruct (sort_array_run ha _ _ Hread) as (sorted & Hsort & Hsorted).
  rewrite (mbind_ok _ _ _ _ _ Hsort), slice_array_run.
  exists (OArray (map VNumber sims) :: mapi_from match_object 0 (map VNumber sims)
          ++ [OArray sorted; OArray (slice sorted 0 k)]).
  assert (Eh : ha ++ [OArray sorted; OArray (slice sorted 0 k)]
               = h ++ OArray (map VNumber sims) :: mapi_from match_object 0 (map VNumber sims)
                   ++ [OArray sorted; OArray (slice sorted 0 k)]).
  { subst ha h1. rewrite <- !app_assoc. reflexivity. }
  eexists. split; [rewrite <- Eh; reflexivity |].
  eexists. split; [reflexivity |]. rewrite <- Eh.
  unfold read_matches, read_array, deref.
  change (ha ++ [OArray sorted; OArray (slice sorted 0 k)])
    with (ha ++ [OArray sorted] ++ [OArray (slice sorted 0 k)]).
  rewrite app_assoc.
  replace (S (List.length ha)) with (List.length (ha ++ [OArray sorted]))
    by (rewrite length_app; cbn; lia).
  rewrite nth_error_at_end, <- app_assoc.
  apply (read_all_ext (read_match ha)); [intros; now apply read_match_app |].
  apply read_all_slice. exact Hsorted.
Qed.

Lemma keeps_weaken (n : nat) {A : Type} (m : M A) (Q R : A -> Prop) :
  keeps n m Q -> (forall a, Q a -> R a) -> keeps n m R.
Proof.
  intros Hm HQ h Hn. destruct (Hm h Hn) as (H1 & H2 & H3). auto.
Qed.

Lemma keeps_reader (n : nat) {A : Type} (m : M A) :
  (forall h, snd (m h) = h) -> keeps n m anything.
Proof.
  intros Hm h Hn. rewrite Hm. repeat split; auto.
Qed.

Lemma keeps_ret (n : nat) {A : Type} (a : A) (Q : A -> Prop) :
  Q a -> keeps n (ret a) Q.
Proof.
  intros HQ h Hn. cbn. repeat split; auto. intros a' [= <-]. exact HQ.
Qed.

Lemma keeps_bind (n : nat) {A B : Type} (m : M A) (k : A -> M B)
    (Q : A -> Prop) (R : B -> Prop) :
  keeps n m Q -> (forall a, Q a -> keeps n (k a) R) -> keeps n (mbind m k) R.
Proof.
  intros Hm Hk h Hn. unfold mbind.
  destruct (Hm h Hn) as (H1 & H2 & H3).
  destruct (m h) as [[a | e] h']; cbn [fst snd] in *.
  - destruct (Hk a (H3 a eq_refl) h') as (K1 & K2 & K3); [lia |].
    repeat split; [congruence | lia | exact K3].
  - repeat split; auto. discriminate.
Qed.

Lemma keeps_alloc (n : nat) (o : object) : keeps n (alloc o) (fresh_ref n).
Proof.
  intros h Hn. unfold alloc. cbn [fst snd]. repeat split.
  - rewrite firstn_app. replace (n - List.length h)%nat with 0%nat by lia.
    cbn [firstn]. apply app_nil_r.
  - rewrite length_app. lia.
  - intros a [= <-]. exists (List.length h). auto.
Qed.

Lemma update_length (l : loc) (o : object) (h : heap) :
  List.length (update l o h) = List.length h.
Proof.
  revert l. induction h as [| x h IH]; intros [| l]; cbn; auto.
Qed.

Lemma firstn_update (n : nat) (l : loc) (o : object) (h : heap) :
  (n <= l)%nat -> firstn n (update l o h) = firstn n h.
Proof.
  revert n l. induction h as [| x h IH]; intros n l Hn; [destruct l; reflexivity |].
  destruct l as [| l]; [replace n with 0%nat by lia; reflexivity |].
  destruct n as [| n]; [reflexivity |]. cbn. f_equal. apply IH. lia.
Qed.

Lemma keeps_set_elems (n : nat) (arr : value) (elems : list value) :
  fresh_ref n arr -> keeps n (set_elems arr elems) anything.
Proof.
  intros (l & -> & Hl) h Hn. cbn [set_elems fst snd]. repeat split.
  - now apply firstn_update.
  - rewrite update_length. lia.
Qed.

Lemma keeps_get_elems (n : nat) (arr : value) : keeps n (get_elems arr) anything.
Proof.
  apply keeps_reader. intros h. unfold get_elems.
  destruct (deref h arr) as [[| | |] |]; reflexivity.
Qed.

Lemma keeps_get_data (n : nat) (t : value) : keeps n (get_data t) anything.
Proof.
  apply keeps_reader. intros h. unfold get_data.
  destruct (deref h t) as [[| | |] |]; reflexivity.
Qed.

Lemma keeps_get_item (n : nat) (item : value) : keeps n (get_item item) anything.
Proof.
  apply keeps_reader. intros h. unfold get_item.
  destruct (deref h item) as [[| | |] |]; reflexivity.
Qed.

Lemma keeps_get_similarity (n : nat) (m : value) : keeps n (get_similarity m) anything.
Proof.
  apply keeps_reader. intros h. unfold get_similarity.
  destruct m; try reflexivity; destruct (deref h _) as [[| | |] |]; reflexivity.
Qed.

Lemma keeps_mapi_M (n : nat) {A B : Type} (f : A -> nat -> M B) (Q : B -> Prop) (l : list A) :
  (forall a i, keeps n (f a i) Q) ->
  forall i, keeps n (mapi_M f i l) anything.
Proof.
  intros Hf. induction l as [| a l IH]; intros i; cbn [mapi_M].
  - now apply keeps_ret.
  - eapply keeps_bind; [apply Hf |]. intros b _.
    eapply keeps_bind; [apply IH |]. intros bs _. now apply keeps_ret.
Qed.

Lemma keeps_array_map (n : nat) (f : value -> nat -> M value) (Q : value -> Prop) (arr : value) :
  (forall a i, keeps n (f a i) Q) -> keeps n (array_map f arr) (fresh_ref n).
Proof.
  intros Hf. unfold array_map.
  eapply keeps_bind; [apply keeps_get_elems |]. intros elems _.
  eapply keeps_bind; [apply (keeps_mapi_M n f Q elems Hf) |]. intros vs _.
  apply keeps_alloc.
Qed.

Lemma keeps_insert_M (n : nat) (cmp : value -> value -> M number) (x : value) (l : list value) :
  (forall a b, keeps n (cmp a b) anything) -> keeps n (insert_M cmp x l) anything.
Proof.
  intros Hc. induction l as [| y l IH]; cbn [insert_M].
  - now apply keeps_ret.
  - eapply keeps_bind; [apply Hc |]. intros v _.
    destruct (zero <? (if is_nan v then zero else v))%float.
    + eapply keeps_bind; [apply IH |]. intros r _. now apply keeps_ret.
    + now apply keeps_ret.
Qed.

Lemma keeps_sort_M (n : nat) (cmp : value -> value -> M number) (l : list value) :
  (forall a b, keeps n (cmp a b) anything) -> keeps n (sort_M cmp l) anything.
Proof.
  intros Hc. induction l as [| x l IH]; cbn [sort_M].
  - now apply keeps_ret.
  - eapply keeps_bind; [apply IH |]. intros s _. now apply keeps_insert_M.
Qed.

Lemma keeps_array_sort (n : nat) (cmp : value -> value -> M number) (arr : value) :
  (forall a b, keeps n (cmp a b) anything) -> fresh_ref n arr ->
  keeps n (array_sort cmp arr) (fresh_ref n).
Proof.
  intros Hc Harr. unfold array_sort.
  eapply keeps_bind; [apply keeps_get_elems |]. intros elems _.
  eapply keeps_bind; [now apply keeps_sort_M |]. intros sorted _.
  eapply keeps_bind; [now apply keeps_set_elems |]. intros _ _.
  now apply keeps_ret.
Qed.

Lemma keeps_array_slice (n : nat) (arr : value) (start end_ : Z) :
  keeps n (array_slice arr start end_) (fresh_ref n).
Proof.
  unfold array_slice.
  eapply keeps_bind; [apply keeps_get_elems |]. intros elems _. apply keeps_alloc.
Qed.

Lemma keeps_by_similarity (n : nat) (a b : value) :
  keeps n (OnStore.by_similarity a b) anything.
Proof.
  unfold OnStore.by_similarity.
  eapply keeps_bind; [apply keeps_get_similarity |]. intros sb _.
  eapply keeps_bind; [apply keeps_get_similarity |]. intros sa _.
  now apply keeps_ret.
Qed.

Lemma keeps_item_similarity cos_sim (n : nat) (q item : value) :
  keeps n (OnStore.item_similarity cos_sim q item) anything.
Proof.
  unfold OnStore.item_similarity.
  eapply keeps_bind; [apply keeps_get_item |]. intros [[te ie] ty] _.
  destruct (ty =? "both")%string; [| destruct (ty =? "text")%string];
    repeat (eapply keeps_bind; [apply keeps_get_data |]; intros ? _);
    now apply keeps_ret.
Qed.

Lemma keeps_findBestMatches cos_sim (n : nat) (q c : value) (top_k : option Z) :
  keeps n (OnStore.findBestMatches cos_sim q c top_k) (fresh_ref n).
Proof.
  unfold OnStore.findBestMatches.
  eapply keeps_bind.
  { apply (keeps_array_map n _ anything). intros item i.
    eapply keeps_bind; [apply keeps_item_similarity |]. intros s _. now apply keeps_ret. }
  intros similarities _.
  eapply keeps_bind.
  { apply (keeps_array_map n _ (fresh_ref n)). intros s i. apply keeps_alloc. }
  intros pairs Hpairs.
  eapply keeps_bind; [apply keeps_array_sort; [apply keeps_by_similarity | exact Hpairs] |].
  intros sorted _. apply keeps_array_slice.
Qed.

(** C9. For every store, query, catalog and [top_k], a call to
    [findBestMatches] leaves every object that existed before the call as
    it was: the store after the call is the store before it followed by
    newly allocated objects, so the catalog array, its items and the query
    tensor read back unchanged. *)
Theorem findBestMatches_does_not_mutate cos_sim (h : heap) (q c : value) (top_k : option Z) :
  let h' := snd (OnStore.findBestMatches cos_sim q c top_k h) in
  (exists fresh, h' = h ++ fresh) /\
  (forall catalog, read_catalog h c = Some catalog -> read_catalog h' c = Some catalog) /\
  (forall query, read_tensor h q = Some query -> read_tensor h' q = Some query).
Proof.
  intros h'.
  assert (E : exists fresh, h' = h ++ fresh).
  { destruct (keeps_findBestMatches cos_sim (List.length h) q c top_k h (le_n _))
      as (H & _ & _).
    fold h' in H. rewrite firstn_all in H.
    exists (skipn (List.length h) h'). rewrite <- H at 1. symmetry. apply firstn_skipn. }
  split; [exact E |]. destruct E as [fresh ->].
  split; intros x Hx; [now apply read_catalog_app | now apply read_tensor_app].
Qed.

(** C8. For every store holding a query tensor and a catalog, two calls of
    [findBestMatches] with the same arguments, one after the other, either
    both throw the same exception or return two arrays holding the same
    matches in the same order. *)
Theorem findBestMatches_twice cos_sim (h : heap) (q c : value) (top_k : option Z)
    (query : Tensor) (catalog : list item_value) :
  read_tensor h q = Some query -> read_catalog h c = Some catalog ->
  let (r1, h1) := OnStore.findBestMatches cos_sim q c top_k h in
  let (r2, h2) := OnStore.findBestMatches cos_sim q c top_k h1 in
  match r1, r2 with
  | Ok v1, Ok v2 =>
      exists ms, findBestMatches cos_sim query catalog top_k = Ok ms /\
                 read_matches h2 v1 = Some ms /\ read_matches h2 v2 = Some ms
  | Throw e1, Throw e2 => e1 = e2
  | _, _ => False
  end.
Proof.
  intros Hq Hc.
  destruct (findBestMatches_on_store cos_sim h q c top_k query catalog Hq Hc)
    as (fresh1 & r1 & E1 & H1).
  rewrite E1.
  destruct (findBestMatches_on_store cos_sim (h ++ fresh1) q c top_k query catalog
              (read_tensor_app _ _ _ _ Hq) (read_catalog_app _ _ _ _ Hc))
    as (fresh2 & r2 & E2 & H2).
  rewrite E2.
  destruct (findBestMatches cos_sim query catalog top_k) as [ms | e].
  - destruct H1 as (v1 & -> & R1), H2 as (v2 & -> & R2).
    exists ms. repeat split; [now apply read_matches_app | exact R2].
  - subst r1 r2. reflexivity.
Qed.

(** ** Part X. The demo catalog

    The functions evaluated on the instance of Part IV, and the theorems
    above applied to it. *)

Example demo_items_embedded :
  processSearchableItems Demo.embedText Demo.embedImage Demo.items = Some Demo.catalog.
Proof. reflexivity. Qed.

Example demo_top_3 :
  map index
    (match findBestMatches Demo.cosine Demo.east Demo.catalog None with
     | Ok ms => ms
     | Throw _ => []
     end)
  = [1; 0; 2]%nat.
Proof. vm_compute. reflexivity. Qed.

Example demo_store_holds_catalog :
  read_catalog DemoStore.heap DemoStore.catalog = Some Demo.catalog.
Proof. reflexivity. Qed.

Example demo_store_top_3 :
  let (r, h') :=
    OnStore.findBestMatches Demo.cosine DemoStore.query DemoStore.catalog None DemoStore.heap in
  match r with
  | Ok v => option_map (map index) (read_matches h' v) = Some [1; 0; 2]%nat
  | Throw _ => False
  end.
Proof. vm_compute. reflexivity. Qed.

(** A similarity that is NaN (here the cosine with the zero vector) makes
    the comparator inconsistent: the entry stays where it was, above a
    larger similarity.  This is why the ordering theorems ask for
    similarities that are numbers. *)
Example demo_nan_is_not_ordered :
  map (fun m => (index m, is_nan (similarity m)))
    (match findBestMatches Demo.cosine Demo.east
             (Some {| text_embed := Some Demo.origin; image_embed := None; type := "text" |}
              :: Demo.catalog) (Some 2%Z) with
     | Ok ms => ms
     | Throw _ => []
     end)
  = [(0%nat, true); (2%nat, false)].
Proof. vm_compute. reflexivity. Qed.

Lemma matches_sorted_by_similarity_demo :
  exists ms, findBestMatches Demo.cosine Demo.east Demo.catalog (Some 3%Z) = Ok ms /\
    forall (i : nat) (a b : Match),
      nth_error ms i = Some a -> nth_error ms (S i) = Some b ->
      (similarity b <=? similarity a)%float = true.
Proof.
  apply (matches_sorted_by_similarity Demo.cosine Demo.east Demo.catalog 3);
    [lia | reflexivity | vm_compute; reflexivity].
Defined.

Lemma equal_scores_keep_catalog_order_demo :
  exists ms, findBestMatches Demo.cosine Demo.east Demo.catalog None = Ok ms /\
    forall (i j : nat) (a b : Match),
      (i < j)%nat -> nth_error ms i = Some a -> nth_error ms j = Some b ->
      (similarity a =? similarity b)%float = true ->
      (index a < index b)%nat.
Proof.
  apply (equal_scores_keep_catalog_order Demo.cosine Demo.east Demo.catalog None);
    [reflexivity | vm_compute; reflexivity].
Defined.

Lemma matches_count_demo :
  (exists ms, findBestMatches Demo.cosine Demo.east Demo.catalog (Some 2%Z) = Ok ms /\
     List.length ms = Nat.min (Z.to_nat 2) (List.length Demo.catalog)) /\
  findBestMatches Demo.cosine Demo.east [] (Some 2%Z) = Ok [].
Proof.
  apply (matches_count Demo.cosine Demo.east Demo.catalog 2); [lia | reflexivity].
Defined.

Lemma default_top_k_demo :
  findBestMatches Demo.cosine Demo.east Demo.catalog None
    = findBestMatches Demo.cosine Demo.east Demo.catalog (Some 3%Z) /\
  exists ms, findBestMatches Demo.cosine Demo.east Demo.catalog None = Ok ms /\
    List.length ms = Nat.min 3 (List.length Demo.catalog).
Proof.
  apply (default_top_k Demo.cosine Demo.east Demo.catalog); reflexivity.
Defined.

Lemma nonpositive_top_k_demo :
  exists sims, map_throwing (item_similarity Demo.cosine Demo.east) Demo.catalog = Ok sims /\
    findBestMatches Demo.cosine Demo.east Demo.catalog (Some (-1)%Z) =
      Ok (firstn (if (-1 =? 0)%Z then 0 else List.length Demo.catalog - Z.to_nat (- -1))
                 (ranking sims)).
Proof.
  apply (nonpositive_top_k Demo.cosine Demo.east Demo.catalog (-1)); [lia | reflexivity].
Defined.

Lemma embedding_preserves_order_demo :
  exists res, processSearchableItems Demo.embedText Demo.embedImage Demo.items = Some res /\
    List.length res = List.length Demo.items /\
    forall (i : nat) (item : CatalogItem), nth_error Demo.items i = Some item ->
      exists v, nth_error res i = Some v /\
        embed_item Demo.embedText Demo.embedImage item = Ok v /\
        (truthy (text item) && truthy (image item) = true ->
         exists t im, Demo.embedText (string_of (text item)) = Ok t /\
                      Demo.embedImage (string_of (image item)) = Ok im /\
                      v = Some {| text_embed := Some t; image_embed := Some im;
                                  type := "both" |}).
Proof.
  apply (embedding_preserves_order Demo.embedText Demo.embedImage Demo.items).
  reflexivity.
Defined.

Lemma findBestMatches_twice_demo :
  let (r1, h1) :=
    OnStore.findBestMatches Demo.cosine DemoStore.query DemoStore.catalog None DemoStore.heap in
  let (r2, h2) :=
    OnStore.findBestMatches Demo.cosine DemoStore.query DemoStore.catalog None h1 in
  match r1, r2 with
  | Ok v1, Ok v2 =>
      exists ms, findBestMatches Demo.cosine Demo.east Demo.catalog None = Ok ms /\
                 read_matches h2 v1 = Some ms /\ read_matches h2 v2 = Some ms
  | Throw e1, Throw e2 => e1 = e2
  | _, _ => False
  end.
Proof.
  apply (findBestMatches_twice Demo.cosine DemoStore.heap DemoStore.query DemoStore.catalog
           None Demo.east Demo.catalog); reflexivity.
Defined.

(** ** Part XI. More on the ranker and the embedder

    Further properties of [findBestMatches] and [processSearchableItems]:
    when they fail, which indices come back, that the matches returned are
    the best ones, and how the two functions compose. *)

(** What the scoring callback can read without throwing: an object whose
    branch finds the embeddings it reads.  A [type] other than 'both' and
    'text' takes the last branch, which reads [image_embed] only. *)
Definition scoreable (item : item_value) : bool :=
  match item with
  | None => false
  | Some item =>
      if (type item =? "both")%string then
        match text_embed item, image_embed item with
        | Some _, Some _ => true
        | _, _ => false
        end
      else if (type item =? "text")%string then
        match text_embed item with Some _ => true | None => false end
      else
        match image_embed item with Some _ => true | None => false end
  end.

Lemma item_similarity_scoreable cos_sim (q : Tensor) (item : item_value) :
  if scoreable item
  then exists s, item_similarity cos_sim q item = Ok s
  else item_similarity cos_sim q item = Throw TypeError.
Proof.
  destruct item as [[[t |] [i |] ty] |]; cbn; [| | | | reflexivity];
    destruct (ty =? "both")%string; cbn; eauto;
    destruct (ty =? "text")%string; cbn; eauto.
Qed.

Lemma map_throwing_throws {A B : Type} (f : A -> result B) (e : exn) (l : list A) :
  (forall a e', f a = Throw e' -> e' = e) ->
  forall e', map_throwing f l = Throw e' -> e' = e.
Proof.
  intros Hf. induction l as [| a l IH]; intros e' H; cbn in H; [discriminate |].
  destruct (f a) as [b | e0] eqn:Ea; cbn in H.
  - destruct (map_throwing f l) as [bs | e1]; cbn in H; [discriminate |].
    injection H as <-. now apply IH.
  - injection H as <-. eapply Hf. eassumption.
Qed.

(** [findBestMatches] succeeds exactly on the catalogs whose entries are
    all scoreable, whatever the query, the cosine and [top_k] are; on any
    other catalog it throws a [TypeError], and never anything else. *)
Theorem findBestMatches_fails_iff cos_sim (q : Tensor) (catalog : list item_value)
    (top_k : option Z) :
  (forallb scoreable catalog = true ->
   exists ms, findBestMatches cos_sim q catalog top_k = Ok ms) /\
  (forallb scoreable catalog = false ->
   findBestMatches cos_sim q catalog top_k = Throw TypeError).
Proof.
  rewrite findBestMatches_unfold. split; intros H.
  - destruct (map_throwing_total (item_similarity cos_sim q) catalog) as [sims E].
    { rewrite forallb_forall in H. apply Forall_forall. intros item Hin.
      pose proof (item_similarity_scoreable cos_sim q item) as Hs.
      rewrite (H item Hin) in Hs. exact Hs. }
    rewrite E. cbn. eauto.
  - destruct (map_throwing (item_similarity cos_sim q) catalog) as [sims | e] eqn:E; cbn.
    + exfalso. apply not_true_iff_false in H. apply H.
      apply forallb_forall. intros item Hin.
      apply In_nth_error in Hin as [j Hj].
      assert (Hlen : (j < List.length sims)%nat).
      { rewrite (map_throwing_length _ _ _ E). apply nth_error_Some. congruence. }
      apply nth_error_Some in Hlen.
      destruct (nth_error sims j) as [s |] eqn:Es; [| congruence].
      destruct (map_throwing_nth _ _ _ E j s Es) as (item' & Hj' & Hs).
      assert (item' = item) by congruence. subst item'.
      pose proof (item_similarity_scoreable cos_sim q item) as Hsc.
      destruct (scoreable item); [reflexivity | congruence].
    + f_equal. apply (map_throwing_throws _ TypeError _) in E; [exact E |].
      intros item e' He.
      pose proof (item_similarity_scoreable cos_sim q item) as Hsc.
      destruct (scoreable item); [destruct Hsc; congruence | congruence].
Qed.

(** *** The indices that come back *)

Lemma mapi_from_indices (i : nat) (sims : list number) :
  map index (mapi_from make_match i sims) = seq i (List.length sims).
Proof.
  revert i. induction sims as [| s sims IH]; intros i; cbn; [reflexivity |].
  now rewrite IH.
Qed.

Lemma ranking_indices (sims : list number) :
  Permutation (map index (ranking sims)) (seq 0 (List.length sims)).
Proof.
  unfold ranking, mapi. rewrite sort_Permutation. now rewrite mapi_from_indices.
Qed.

Lemma NoDup_firstn {A : Type} (n : nat) (l : list A) : NoDup l -> NoDup (firstn n l).
Proof.
  intros H. revert n. induction H as [| a l Ha H IH]; intros n.
  - rewrite firstn_nil. constructor.
  - destruct n as [| n]; cbn; constructor; [| apply IH].
    intros Hin. apply Ha. eapply In_firstn. eassumption.
Qed.

(** The matches returned by [findBestMatches] name pairwise distinct
    catalog entries, all inside the catalog; and when [top_k] is at least
    the catalog length, every catalog entry is named exactly once. *)
Theorem returned_indices cos_sim (q : Tensor) (catalog : list item_value)
    (top_k : option Z) (ms : list Match) :
  findBestMatches cos_sim q catalog top_k = Ok ms ->
  NoDup (map index ms) /\
  Forall (fun m => (index m < List.length catalog)%nat) ms /\
  ((Z.of_nat (List.length catalog) <= match top_k with Some k => k | None => 3 end)%Z ->
   Permutation (map index ms) (seq 0 (List.length catalog))).
Proof.
  rewrite findBestMatches_unfold. intros H.
  destruct (map_throwing (item_similarity cos_sim q) catalog) as [sims |] eqn:E;
    cbn in H; [| discriminate].
  injection H as <-. rewrite slice_from_0.
  pose proof (ranking_indices sims) as P.
  rewrite (map_throwing_length _ _ _ E) in P.
  assert (N : NoDup (map index (ranking sims))).
  { eapply Permutation_NoDup; [symmetry; exact P | apply seq_NoDup]. }
  split; [| split].
  - rewrite <- firstn_map. now apply NoDup_firstn.
  - apply Forall_forall. intros m Hm. apply In_firstn in Hm.
    assert (Hi : In (index m) (seq 0 (List.length catalog))).
    { eapply Permutation_in; [exact P | now apply in_map]. }
    apply in_seq in Hi. lia.
  - intros Hk. rewrite ranking_length, (map_throwing_length _ _ _ E).
    destruct (_ <? 0)%Z eqn:F; [apply Z.ltb_lt in F; lia |].
    rewrite Z.min_r, Nat2Z.id by lia.
    rewrite firstn_all2; [exact P |].
    rewrite ranking_length, (map_throwing_length _ _ _ E). lia.
Qed.

(** *** The matches returned are the best ones *)

Lemma map_throwing_nth_fwd {A B : Type} (f : A -> result B) (l : list A) (bs : list B) :
  map_throwing f l = Ok bs ->
  forall (i : nat) (a : A), nth_error l i = Some a ->
  exists b, nth_error bs i = Some b /\ f a = Ok b.
Proof.
  revert bs. induction l as [| a0 l IH]; intros bs H i a Ha; cbn in H.
  - destruct i; discriminate.
  - destruct (f a0) as [b0 | e] eqn:E0; cbn in H; [| discriminate].
    destruct (map_throwing f l) as [bs' | e]; cbn in H; [| discriminate].
    injection H as <-. destruct i as [| i]; cbn in *.
    + injection Ha as <-. eauto.
    + eapply IH; eauto.
Qed.

Lemma mapi_from_In (i j : nat) (sims : list number) (s : number) :
  nth_error sims j = Some s -> In (make_match s (i + j)) (mapi_from make_match i sims).
Proof.
  revert i j. induction sims as [| s0 sims IH]; intros i j H.
  - destruct j; discriminate.
  - destruct j as [| j]; cbn in *.
    + injection H as <-. left. now rewrite Nat.add_0_r.
    + right. replace (i + S j)%nat with (S i + j)%nat by lia. now apply IH.
Qed.

Lemma StronglySorted_app {A : Type} (R : A -> A -> Prop) (l1 l2 : list A) :
  StronglySorted R (l1 ++ l2) ->
  forall a b, In a l1 -> In b l2 -> R a b.
Proof.
  induction l1 as [| x l1 IH]; intros S a b Ha Hb; [destruct Ha |].
  cbn in S. apply StronglySorted_inv in S as [S F].
  destruct Ha as [<- | Ha]; [| now apply IH].
  rewrite Forall_forall in F. apply F. apply in_or_app. now right.
Qed.

(** For a well-formed catalog whose similarities are numbers, no catalog
    entry left out of the result scores higher than a returned match. *)
Theorem returned_matches_are_the_best cos_sim (q : Tensor) (catalog : list item_value)
    (top_k : option Z) :
  forallb well_formed catalog = true ->
  scores_are_numbers cos_sim q catalog = true ->
  exists ms, findBestMatches cos_sim q catalog top_k = Ok ms /\
    forall (j : nat) (item : item_value) (s : number) (m : Match),
      nth_error catalog j = Some item -> item_similarity cos_sim q item = Ok s ->
      ~ In j (map index ms) -> In m ms ->
      (s <=? similarity m)%float = true.
Proof.
  intros Hwf Hnum. rewrite findBestMatches_unfold.
  destruct (well_formed_similarities cos_sim q catalog Hwf) as [sims E].
  rewrite E. cbn [bind]. eexists; split; [reflexivity |].
  intros j item s m Hj Hs Hout Hm. rewrite slice_from_0 in Hout, Hm.
  set (n := Z.to_nat _) in *.
  pose proof (scores_are_numbers_spec _ _ _ _ Hnum E) as Hn.
  pose proof (ranking_ranked sims Hn) as S.
  rewrite <- (firstn_skipn n (ranking sims)) in S.
  destruct (map_throwing_nth_fwd _ _ _ E j item Hj) as (s' & Hs' & Hs'').
  assert (s' = s) by congruence. subst s'.
  assert (Hin : In (make_match s j) (ranking sims)).
  { eapply Permutation_in; [symmetry; apply sort_Permutation |].
    apply (mapi_from_In 0 j). exact Hs'. }
  rewrite <- (firstn_skipn n (ranking sims)) in Hin.
  apply in_app_or in Hin as [Hin | Hin].
  - exfalso. apply Hout. change j with (index (make_match s j)). now apply in_map.
  - destruct (StronglySorted_app _ _ _ S m (make_match s j) Hm Hin) as [R | [R _]];
      apply leb_true; auto.
Qed.

(** Asking for fewer matches returns a prefix of what asking for more
    returns. *)
Theorem fewer_matches_are_a_prefix cos_sim (q : Tensor) (catalog : list item_value)
    (k1 k2 : Z) (ms : list Match) :
  (0 <= k1 <= k2)%Z ->
  findBestMatches cos_sim q catalog (Some k2) = Ok ms ->
  findBestMatches cos_sim q catalog (Some k1) = Ok (firstn (Z.to_nat k1) ms).
Proof.
  intros Hk. rewrite !findBestMatches_unfold.
  destruct (map_throwing (item_similarity cos_sim q) catalog) as [sims |];
    cbn [bind]; [| discriminate].
  intros [= <-]. f_equal. rewrite !slice_from_0, firstn_firstn.
  destruct (k1 <? 0)%Z eqn:F1; [apply Z.ltb_lt in F1; lia |].
  destruct (k2 <? 0)%Z eqn:F2; [apply Z.ltb_lt in F2; lia |].
  f_equal. lia.
Qed.

(** *** Failures and calls of the embedder *)

Lemma Promise_all_None {A : Type} (l : list (result A)) :
  Promise_all l = None <-> Exists (fun r => exists e, r = Throw e) l.
Proof.
  induction l as [| r l IH]; cbn.
  - split; [discriminate | intros H; inversion H].
  - destruct r as [a | e].
    + destruct (Promise_all l) as [vs |].
      * split; [discriminate |]. intros H.
        apply Exists_cons in H as [[e He] | H]; [discriminate |].
        apply IH in H. discriminate.
      * split; [| reflexivity]. intros _. right. now apply IH.
    + split; [| reflexivity]. intros _. left. eauto.
Qed.

(** The load is all or nothing: [processSearchableItems] is rejected
    exactly when the embedding of at least one item throws, and then no
    embedded item at all is handed over. *)
Theorem load_rejected_iff getT getI (items : list CatalogItem) :
  processSearchableItems getT getI items = None <->
  exists item e, In item items /\ embed_item getT getI item = Throw e.
Proof.
  unfold processSearchableItems. rewrite Promise_all_None, Exists_exists. split.
  - intros (r & Hin & e & ->). apply in_map_iff in Hin as (item & He & Hin). eauto.
  - intros (item & e & Hin & He). exists (Throw e). split; [| eauto].
    rewrite <- He. now apply in_map.
Qed.

Lemma embed_item_without_image getT getI getI' (item : CatalogItem) :
  truthy (image item) = false ->
  embed_item getT getI item = embed_item getT getI' item.
Proof. unfold embed_item. intros ->. rewrite andb_false_r. reflexivity. Qed.

Lemma embed_item_without_text getT getT' getI (item : CatalogItem) :
  truthy (text item) = false ->
  embed_item getT getI item = embed_item getT' getI item.
Proof. unfold embed_item. intros ->. reflexivity. Qed.

(** An embedding pipeline is only run on the fields that are present: on
    items without image the result does not depend on the image pipeline,
    and on items without text it does not depend on the text pipeline. *)
Theorem absent_fields_are_not_embedded getT getT' getI getI' (items : list CatalogItem) :
  (forallb (fun item => negb (truthy (image item))) items = true ->
   processSearchableItems getT getI items = processSearchableItems getT getI' items) /\
  (forallb (fun item => negb (truthy (text item))) items = true ->
   processSearchableItems getT getI items = processSearchableItems getT' getI items).
Proof.
  unfold processSearchableItems. split; intros H; f_equal; apply map_ext_in;
    intros item Hin; rewrite forallb_forall in H; specialize (H item Hin);
    apply negb_true_iff in H.
  - now apply embed_item_without_image.
  - now apply embed_item_without_text.
Qed.

(** The embedder feeds the ranker: when every item has a text or an image
    and the load is fulfilled, ranking the loaded catalog never throws and
    returns min(top_k, number of items) matches for [top_k > 0]. *)
Theorem loaded_catalog_can_be_ranked getT getI cos_sim (q : Tensor)
    (items : list CatalogItem) (res : list item_value) (k : Z) :
  (0 < k)%Z ->
  forallb (fun item => truthy (text item) || truthy (image item)) items = true ->
  processSearchableItems getT getI items = Some res ->
  exists ms, findBestMatches cos_sim q res (Some k) = Ok ms /\
    List.length ms = Nat.min (Z.to_nat k) (List.length items).
Proof.
  intros Hk Hf Hres.
  pose proof (embedded_items_well_formed _ _ _ _ Hres Hf) as Hwf.
  assert (Hlen : List.length res = List.length items).
  { unfold processSearchableItems in Hres. apply Promise_all_Forall2 in Hres.
    apply Forall2_length in Hres. rewrite length_map in Hres. congruence. }
  rewrite findBestMatches_unfold.
  destruct (well_formed_similarities cos_sim q res Hwf) as [sims E].
  rewrite E. cbn [bind]. eexists; split; [reflexivity |].
  rewrite slice_from_0, length_firstn, ranking_length.
  rewrite (map_throwing_length _ _ _ E), Hlen.
  destruct (k <? 0)%Z eqn:F; [apply Z.ltb_lt in F; lia | lia].
Qed.

(** *** The array that comes back is new *)

(** On every store, the array returned by [findBestMatches] is an object
    allocated by the call: its reference names no object of the store the
    call started from, so it is neither the catalog nor any other array
    the caller already holds. *)
Theorem returned_array_is_new cos_sim (h : heap) (q c : value) (top_k : option Z) (v : value) :
  fst (OnStore.findBestMatches cos_sim q c top_k h) = Ok v ->
  exists l, v = VRef l /\ (List.length h <= l)%nat /\ nth_error h l = None.
Proof.
  intros H.
  destruct (keeps_findBestMatches cos_sim (List.length h) q c top_k h (le_n _))
    as (_ & _ & F).
  destruct (F v H) as (l & -> & Hl).
  exists l. repeat split; [exact Hl |]. now apply nth_error_None.
Qed.

(** ** Part XII. The rest of the script

    The set-up of the environment ([checkWebGPUSupport],
    [configureEnvironment], [loadModels]), the presentation of the matches
    ([generateResultHTML]) and the caller of everything, [runDemo]. *)

Local Open Scope string_scope.

(** *** Values *)

(** What [checkWebGPUSupport] can throw: an [Error] it creates itself, or
    the exception of a rejected [requestAdapter]. *)
Inductive thrown :=
  | Error (message : string)
  | Raised (e : exn).

Inductive outcome (A : Type) :=
  | Returned (a : A)
  | Thrown (t : thrown).
Arguments Returned {A} a.
Arguments Thrown {A} t.

Inductive Adapter := GPUAdapter.

(** [navigator]: [gpu] is [None] when [navigator.gpu] is falsy; otherwise
    it holds what awaiting [navigator.gpu.requestAdapter()] gives: an
    adapter, [null] ([None]), or an exception. *)
Record Navigator := { gpu : option (result (option Adapter)) }.

(** A setting of the library's [env] object: not set, a boolean or a
    number. *)
Inductive setting :=
  | Unset
  | Flag (b : bool)
  | Count (n : Z).

(** The settings of [env] that the script writes:
    [env.backends.onnx.wasm.numThreads], [env.backends.onnx.wasm.proxy],
    [env.useBrowserCache], [env.useWebGPU] and [env.allowLocalModels]. *)
Record Env := {
  numThreads : setting;
  proxy : setting;
  useBrowserCache : setting;
  useWebGPU : setting;
  allowLocalModels : setting
}.

(** What [runDemo] does to the page and the console, in order:
    [output.innerHTML = html], [output.innerHTML += html],
    [console.warn(label, error)] and [console.error(label, error)]. *)
Inductive event :=
  | SetHTML (html : string)
  | AppendHTML (html : string)
  | ConsoleWarn (label : string) (error : thrown)
  | ConsoleError (label : string) (error : exn).

(** *** Built-ins of the language used by the presentation *)

Definition quote : string := String (ascii_of_nat 34) "".
Definition newline : string := String (ascii_of_nat 10) "".
Definition repeat_string (s : string) (n : nat) : string := String.concat "" (repeat s n).
Definition spaces (n : nat) : string := repeat_string " " n.

(** The decimal digits of a non-negative integer, without leading zeros. *)
Definition decimal (n : Z) : string := NilZero.string_of_uint (N.to_uint (Z.to_N n)).

(** The integer [n] for which [n / 10^f] is nearest to [m * 2^e], the
    larger one if there are two: the floor of [m * 2^e * 10^f + 1/2]. *)
Definition nearest_scaled (m : positive) (e : Z) (f : nat) : Z :=
  let scaled := (Zpos m * 10 ^ Z.of_nat f)%Z in
  if (0 <=? e)%Z then (scaled * 2 ^ e)%Z
  else ((2 * scaled + 2 ^ (- e)) / 2 ^ (1 - e))%Z.

(** [m * 2^e >= 10^21]. *)
Definition at_least_1e21 (m : positive) (e : Z) : bool :=
  if (0 <=? e)%Z then (10 ^ 21 <=? Zpos m * 2 ^ e)%Z
  else (10 ^ 21 * 2 ^ (- e) <=? Zpos m)%Z.

(** The digits of [n] with a decimal point before the last [f] of them,
    padded with zeros on the left up to [f + 1] digits. *)
Definition fixed_digits (n : Z) (f : nat) : string :=
  let m := decimal n in
  if (f =? 0)%nat then m
  else
    let k := String.length m in
    let m := if (k <=? f)%nat then repeat_string "0" (f + 1 - k) ++ m else m in
    let k := String.length m in
    substring 0 (k - f) m ++ "." ++ substring (k - f) f m.

Section Page.

(** The third-party parts.  [Number_toString] is the language's conversion
    of a number to a string, which [toFixed] falls back to from 10^21 on;
    [TypeError_message] is the engine's text for a [TypeError];
    the four [from_pretrained] loaders read the environment they are called
    in, a model name and the [quantized] option; the embedding pipelines
    are [getTextEmbedding] and [getImageEmbedding] of the script. *)
Variable cos_sim : list number -> list number -> number.
Variable Number_toString : number -> string.
Variable TypeError_message : string.
Variables Tokenizer TextModel Processor VisionModel : Type.
Variable AutoTokenizer_from_pretrained : Env -> string -> bool -> result Tokenizer.
Variable CLIPTextModelWithProjection_from_pretrained : Env -> string -> bool -> result TextModel.
Variable AutoProcessor_from_pretrained : Env -> string -> bool -> result Processor.
Variable CLIPVisionModelWithProjection_from_pretrained :
  Env -> string -> bool -> result VisionModel.
Variable getTextEmbedding : Tokenizer -> TextModel -> string -> result Tensor.
Variable getImageEmbedding : Processor -> VisionModel -> string -> result Tensor.

(** [x.toFixed(fractionDigits)] (ECMA-262, 21.1.3.3), for
    [fractionDigits] between 0 and 100. *)
Definition toFixed (x : number) (fractionDigits : nat) : string :=
  match Prim2SF x with
  | S754_nan => "NaN"
  | S754_infinity false => "Infinity"
  | S754_infinity true => "-Infinity"
  | S754_zero _ => fixed_digits 0 fractionDigits
  | S754_finite s m e =>
      (if s then "-" else "") ++
      (if at_least_1e21 m e then Number_toString (abs x)
       else fixed_digits (nearest_scaled m e fractionDigits) fractionDigits)
  end.

(** [error.message]. *)
Definition message (error : exn) : string :=
  match error with
  | TypeError => TypeError_message
  | ExternalError m => m
  end.

Definition message_of (error : thrown) : string :=
  match error with
  | Error m => m
  | Raised e => message e
  end.

(** *** Set-up *)

Definition checkWebGPUSupport (navigator : Navigator) : outcome bool :=
  match gpu navigator with
  | None => Thrown (Error "WebGPU not supported on this browser.")
  | Some (Throw e) => Thrown (Raised e)
  | Some (Ok None) => Thrown (Error "Couldn't request WebGPU adapter.")
  | Some (Ok (Some _)) => Returned true
  end.

Definition configureEnvironment (useWebGPU : bool) (env : Env) : Env :=
  if useWebGPU then
    {| numThreads := Count 1;
       proxy := Flag true;
       useBrowserCache := Flag false;
       useWebGPU := Flag true;
       allowLocalModels := Flag false |}
  else
    {| numThreads := Count 4;
       proxy := proxy env;
       useBrowserCache := useBrowserCache env;
       useWebGPU := Flag false;
       allowLocalModels := allowLocalModels env |}.

Record Models := {
  tokenizer : Tokenizer;
  text_model : TextModel;
  processor : Processor;
  vision_model : VisionModel
}.

Definition loadModels (env : Env) : result Models :=
  let modelName := "Xenova/clip-vit-base-patch32" in
  tokenizer <- AutoTokenizer_from_pretrained env modelName true ;;
  text_model <- CLIPTextModelWithProjection_from_pretrained env modelName true ;;
  processor <- AutoProcessor_from_pretrained env modelName true ;;
  vision_model <- CLIPVisionModelWithProjection_from_pretrained env modelName true ;;
  Ok {| tokenizer := tokenizer; text_model := text_model;
        processor := processor; vision_model := vision_model |}.

(** *** Presentation *)

(** The template appended for the match [{ index, similarity }] at
    position [i] of [matches], whose length is [n]; reading a property of
    [items[index]] throws when the index is outside [items]. *)
Definition result_block (items : list CatalogItem) (n : nat) (m : Match) (i : nat)
    : result string :=
  match nth_error items (index m) with
  | None => Throw TypeError
  | Some item =>
      Ok (newline ++ spaces 12 ++ "<div class=" ++ quote ++ "result-item" ++ quote ++ ">"
          ++ newline ++ spaces 16 ++ "<h4>Match " ++ decimal (Z.of_nat i + 1) ++ "</h4>"
          ++ newline ++ spaces 16
          ++ (if truthy (text item)
              then "<p><strong>Text:</strong> " ++ quote ++ string_of (text item) ++ quote
                   ++ "</p>"
              else "")
          ++ newline ++ spaces 16
          ++ (if truthy (image item)
              then "<p><strong>Image:</strong></p><img src=" ++ quote
                   ++ string_of (image item) ++ quote ++ " alt=" ++ quote ++ "Result image"
                   ++ quote ++ " style=" ++ quote ++ "max-width: 200px;" ++ quote ++ ">"
              else "")
          ++ newline ++ spaces 16 ++ "<p><strong>Similarity:</strong> "
          ++ toFixed (similarity m * 100)%float 2 ++ "%</p>"
          ++ newline ++ spaces 12 ++ "</div>"
          ++ newline ++ spaces 12
          ++ (if (Z.of_nat i <? Z.of_nat n - 1)%Z then "<hr>" else "")
          ++ newline ++ spaces 8)
  end.

(** [matches.forEach((m, i) => { html += ... })], from position [i] on. *)
Fixpoint forEach_match (items : list CatalogItem) (n : nat) (matches : list Match) (i : nat)
    (html : string) : result string :=
  match matches with
  | [] => Ok html
  | m :: matches' =>
      block <- result_block items n m i ;;
      forEach_match items n matches' (S i) (html ++ block)
  end.

Definition generateResultHTML (query : string) (items : list CatalogItem)
    (matches : list Match) : result string :=
  let html := "<h3>Query: " ++ quote ++ query ++ quote ++ "</h3>" in
  html <- forEach_match items (List.length matches) matches 0 html ;;
  Ok (html ++ "<hr class=" ++ quote ++ "query-separator" ++ quote ++ ">").

(** *** [runDemo] *)

Definition searchableItems : list CatalogItem :=
  [ {| text := Some "A cat lounging in the sun";
       image := Some "https://images.unsplash.com/photo-1514888286974-6c03e2ca1dba" |};
    {| text := Some "A dog playing in the park";
       image := Some "https://images.unsplash.com/photo-1543466835-00a7907e9de1" |};
    {| text := Some "A colorful parrot perched on a branch";
       image := Some "https://images.unsplash.com/photo-1552728089-57bdde30beb3" |};
    {| text := Some "Some goldfish";
       image := Some "https://images.unsplash.com/photo-1524704654690-b56c05c78a00" |};
    {| text := Some "A majestic lion in the savanna";
       image := Some "https://images.unsplash.com/photo-1614027164847-1b28cfe1df60" |} ].

Definition queries : list string :=
  [ "A pet animal"; "A bird in nature"; "An aquatic creature" ].

(** The reasons of the rejected promises among [l]. *)
Definition rejections {A : Type} (l : list (result A)) : list exn :=
  flat_map (fun r => match r with Ok _ => [] | Throw e => [e] end) l.

(** Awaiting [processSearchableItems(...)]: the array, or the reason of
    the item promise that rejects first.  Which one does is up to the
    schedule of the embedding calls; [winner] numbers the choice among the
    rejected ones. *)
Definition await_items (winner : nat) (models : Models) (items : list CatalogItem)
    : result (list item_value) :=
  let embed :=
    embed_item (getTextEmbedding (tokenizer models) (text_model models))
               (getImageEmbedding (processor models) (vision_model models)) in
  match Promise_all (map embed items) with
  | Some item_embeds => Ok item_embeds
  | None =>
      let reasons := rejections (map embed items) in
      Throw (nth winner reasons (hd TypeError reasons))
  end.

(** The loop [for (const query of queries) { ... }]: what has been written
    when it ends or throws. *)
Fixpoint search_queries (models : Models) (item_embeds : list item_value)
    (queries : list string) (log : list event) : list event * result unit :=
  match queries with
  | [] => (log, Ok tt)
  | query :: queries' =>
      match getTextEmbedding (tokenizer models) (text_model models) query with
      | Throw e => (log, Throw e)
      | Ok query_embed =>
          match findBestMatches cos_sim query_embed item_embeds (Some 3%Z) with
          | Throw e => (log, Throw e)
          | Ok matches =>
              match generateResultHTML query searchableItems matches with
              | Throw e => (log, Throw e)
              | Ok html => search_queries models item_embeds queries' (log ++ [AppendHTML html])%list
              end
          end
      end
  end.

(** The body of the second [try] of [runDemo], with [env.allowLocalModels]
    already set. *)
Definition load_and_search (winner : nat) (env : Env) (log : list event)
    : list event * result unit :=
  match loadModels env with
  | Throw e => (log, Throw e)
  | Ok models =>
      let log := (log ++ [AppendHTML "Models loaded. Processing...<br>"])%list in
      match await_items winner models searchableItems with
      | Throw e => (log, Throw e)
      | Ok item_embeds =>
          let log := (log ++ [AppendHTML "<h2>Text Query to Mixed Item Matching</h2>"])%list in
          search_queries models item_embeds queries log
      end
  end.

(** [runDemo()]: the environment it leaves and what it writes, in order.
    [has_output] tells whether the page has the element 'output'; without
    it the first assignment throws and nothing else happens. *)
Definition runDemo (has_output : bool) (navigator : Navigator) (winner : nat) (env : Env)
    : result (Env * list event) :=
  if has_output then
    let log := [SetHTML "Initializing...<br>"] in
    let '(env, log) :=
      match checkWebGPUSupport navigator with
      | Returned useWebGPU =>
          (configureEnvironment useWebGPU env,
           (log ++ [AppendHTML "WebGPU supported. Loading models...<br>"])%list)
      | Thrown error =>
          (configureEnvironment false env,
           (log ++ [ConsoleWarn "WebGPU not available:" error;
                    AppendHTML ("WebGPU not available: " ++ message_of error
                                ++ ". Falling back to CPU.<br>")%string])%list)
      end in
    let env :=
      {| numThreads := numThreads env;
         proxy := proxy env;
         useBrowserCache := useBrowserCache env;
         useWebGPU := useWebGPU env;
         allowLocalModels := Flag false |} in
    match load_and_search winner env log with
    | (log, Ok _) => Ok (env, log)
    | (log, Throw error) =>
        Ok (env,
            (log ++ [ConsoleError "An error occurred:" error;
                     AppendHTML ("An error occurred: " ++ message error ++ "<br>")%string])%list)
    end
  else Throw TypeError.

(** *** What the statements about [runDemo] speak of *)

(** WebGPU is used: [navigator.gpu] exists and [requestAdapter] gives an
    adapter. *)
Definition webgpu_available (navigator : Navigator) : bool :=
  match gpu navigator with
  | Some (Ok (Some _)) => true
  | _ => false
  end.

(** The events of the first [try] of [runDemo], after 'Initializing'. *)
Definition webgpu_events (navigator : Navigator) : list event :=
  match checkWebGPUSupport navigator with
  | Returned _ => [AppendHTML "WebGPU supported. Loading models...<br>"]
  | Thrown error =>
      [ConsoleWarn "WebGPU not available:" error;
       AppendHTML ("WebGPU not available: " ++ message_of error
                   ++ ". Falling back to CPU.<br>")]
  end.

(** The environment in which [runDemo] loads the models. *)
Definition configured (navigator : Navigator) (env : Env) : Env :=
  let env := configureEnvironment (webgpu_available navigator) env in
  {| numThreads := numThreads env;
     proxy := proxy env;
     useBrowserCache := useBrowserCache env;
     useWebGPU := useWebGPU env;
     allowLocalModels := Flag false |}.

(** The text and the image of every item of [searchableItems] can be
    embedded with [models]. *)
Definition items_embed (models : Models) : bool :=
  forallb (fun item =>
             is_ok (getTextEmbedding (tokenizer models) (text_model models)
                      (string_of (text item))) &&
             is_ok (getImageEmbedding (processor models) (vision_model models)
                      (string_of (image item)))) searchableItems.

(** Every query of [qs] can be embedded with [models]. *)
Definition queries_embed (models : Models) (qs : list string) : bool :=
  forallb (fun query =>
             is_ok (getTextEmbedding (tokenizer models) (text_model models) query)) qs.

(** Every embedding call that [runDemo] makes with [models] succeeds. *)
Definition embeddings_succeed (models : Models) : bool :=
  items_embed models && queries_embed models queries.

(** [html] is what [runDemo] shows for [query] against [item_embeds]:
    the presentation of the three best matches. *)
Definition shown_for (models : Models) (item_embeds : list item_value)
    (query html : string) : Prop :=
  exists query_embed matches,
    getTextEmbedding (tokenizer models) (text_model models) query = Ok query_embed /\
    findBestMatches cos_sim query_embed item_embeds (Some 3%Z) = Ok matches /\
    List.length matches = 3%nat /\
    generateResultHTML query searchableItems matches = Ok html.

(** The blocks of a page, one after the other. *)
Definition join (blocks : list string) : string := fold_right String.append "" blocks.

(** ** Part XIII. Presentation and [runDemo] *)

(** *** Strings *)

Lemma append_assoc (a b c : string) : (a ++ b) ++ c = a ++ (b ++ c).
Proof. induction a as [| x a IH]; cbn; [reflexivity | now rewrite IH]. Qed.

Lemma append_empty_r (a : string) : a ++ "" = a.
Proof. induction a as [| x a IH]; cbn; [reflexivity | now rewrite IH]. Qed.

(** *** [generateResultHTML] *)

Lemma result_block_in_range (items : list CatalogItem) (n : nat) (m : Match) (i : nat) :
  (index m <? List.length items)%nat = true ->
  exists block, result_block items n m i = Ok block.
Proof.
  intros H. apply Nat.ltb_lt, nth_error_Some in H. unfold result_block.
  destruct (nth_error items (index m)); [eauto | congruence].
Qed.

Lemma result_block_out_of_range (items : list CatalogItem) (n : nat) (m : Match) (i : nat) :
  (index m <? List.length items)%nat = false ->
  result_block items n m i = Throw TypeError.
Proof.
  intros H. apply Nat.ltb_ge, nth_error_None in H. unfold result_block. now rewrite H.
Qed.

Lemma forEach_match_fails_iff (items : list CatalogItem) (n : nat) (matches : list Match) :
  forall (i : nat) (html : string),
    if forallb (fun m => (index m <? List.length items)%nat) matches
    then exists out, forEach_match items n matches i html = Ok out
    else forEach_match items n matches i html = Throw TypeError.
Proof.
  induction matches as [| m matches IH]; intros i html; cbn [forallb forEach_match].
  - eauto.
  - destruct (index m <? List.length items)%nat eqn:E; cbn [andb].
    + destruct (result_block_in_range items n m i E) as [block ->]. cbn [bind]. apply IH.
    + now rewrite (result_block_out_of_range items n m i E).
Qed.

Lemma forEach_match_blocks (items : list CatalogItem) (n : nat) (matches : list Match) :
  forall (i : nat) (html out : string),
    forEach_match items n matches i html = Ok out ->
    exists blocks,
      out = html ++ join blocks /\
      List.length blocks = List.length matches /\
      forall (j : nat) (m : Match), nth_error matches j = Some m ->
        exists block, nth_error blocks j = Some block /\
                      result_block items n m (i + j) = Ok block.
Proof.
  induction matches as [| m matches IH]; intros i html out H; cbn [forEach_match] in H.
  - injection H as <-. exists []. split; [now rewrite append_empty_r |].
    split; [reflexivity |]. intros [| j] m' Hj; discriminate.
  - destruct (result_block items n m i) as [block |] eqn:E; cbn [bind] in H; [| discriminate].
    destruct (IH _ _ _ H) as (blocks & -> & L & F).
    exists (block :: blocks). split; [cbn [join fold_right]; apply append_assoc |].
    split; [cbn; congruence |].
    intros [| j] m' Hj; cbn in Hj.
    + injection Hj as <-. exists block. rewrite Nat.add_0_r. auto.
    + destruct (F j m' Hj) as (b & Hb & Hr). exists b. split; [exact Hb |].
      now rewrite Nat.add_succ_r.
Qed.

Lemma generateResultHTML_succeeds (query : string) (items : list CatalogItem)
    (matches : list Match) :
  Forall (fun m => (index m < List.length items)%nat) matches ->
  exists html, generateResultHTML query items matches = Ok html.
Proof.
  intros F. unfold generateResultHTML.
  pose proof (forEach_match_fails_iff items (List.length matches) matches 0
                ("<h3>Query: " ++ quote ++ query ++ quote ++ "</h3>")) as H.
  replace (forallb _ matches) with true in H.
  - destruct H as [out ->]. cbn [bind]. eauto.
  - symmetry. apply forallb_forall. rewrite Forall_forall in F.
    intros m Hm. apply Nat.ltb_lt. now apply F.
Qed.

(** [generateResultHTML] succeeds exactly when every match points inside
    [items]; otherwise reading a property of [items[index]] throws a
    [TypeError], whatever the query and the similarities are. *)
Theorem generateResultHTML_fails_iff (query : string) (items : list CatalogItem)
    (matches : list Match) :
  (forallb (fun m => (index m <? List.length items)%nat) matches = true ->
   exists html, generateResultHTML query items matches = Ok html) /\
  (forallb (fun m => (index m <? List.length items)%nat) matches = false ->
   generateResultHTML query items matches = Throw TypeError).
Proof.
  unfold generateResultHTML.
  pose proof (forEach_match_fails_iff items (List.length matches) matches 0
                ("<h3>Query: " ++ quote ++ query ++ quote ++ "</h3>")) as H.
  split; intros E; rewrite E in H.
  - destruct H as [out ->]. cbn [bind]. eauto.
  - now rewrite H.
Qed.

(** The page of a query is its heading, with the query text copied in as
    it is, then one block per match in the order of [matches], then the
    separator; without matches it is the heading and the separator. *)
Theorem generateResultHTML_layout (query : string) (items : list CatalogItem)
    (matches : list Match) (html : string) :
  generateResultHTML query items matches = Ok html ->
  exists blocks,
    html = "<h3>Query: " ++ quote ++ query ++ quote ++ "</h3>" ++ join blocks
           ++ "<hr class=" ++ quote ++ "query-separator" ++ quote ++ ">" /\
    List.length blocks = List.length matches /\
    forall (i : nat) (m : Match), nth_error matches i = Some m ->
      exists block, nth_error blocks i = Some block /\
                    result_block items (List.length matches) m i = Ok block.
Proof.
  unfold generateResultHTML. intros H.
  destruct (forEach_match items (List.length matches) matches 0 _) as [out |] eqn:E;
    cbn [bind] in H; [| discriminate].
  injection H as <-.
  destruct (forEach_match_blocks _ _ _ _ _ _ E) as (blocks & -> & L & F).
  exists blocks. split; [now rewrite !append_assoc |]. split; [exact L | exact F].
Qed.

Lemma findBestMatches_index_range (q : Tensor) (catalog : list item_value)
    (top_k : option Z) (ms : list Match) :
  findBestMatches cos_sim q catalog top_k = Ok ms ->
  Forall (fun m => (index m < List.length catalog)%nat) ms.
Proof.
  rewrite findBestMatches_unfold. intros H.
  destruct (map_throwing (item_similarity cos_sim q) catalog) as [sims |] eqn:E;
    cbn in H; [| discriminate].
  injection H as <-. rewrite slice_from_0.
  apply Forall_forall. intros m Hm. apply In_firstn in Hm.
  assert (Hi : In (index m) (seq 0 (List.length sims))).
  { eapply Permutation_in; [apply ranking_indices | now apply in_map]. }
  apply in_seq in Hi. rewrite <- (map_throwing_length _ _ _ E). lia.
Qed.

(** The ranker feeds the presentation: the matches that [findBestMatches]
    returns for a catalog can always be presented against a list of items
    of the same length as the catalog. *)
Theorem matches_can_be_presented (q : Tensor) (catalog : list item_value)
    (top_k : option Z) (ms : list Match) (query : string) (items : list CatalogItem) :
  findBestMatches cos_sim q catalog top_k = Ok ms ->
  List.length items = List.length catalog ->
  exists html, generateResultHTML query items ms = Ok html.
Proof.
  intros H L. apply generateResultHTML_succeeds.
  rewrite L. eapply findBestMatches_index_range. eassumption.
Qed.

(** *** [runDemo] *)

Lemma runDemo_unfold (navigator : Navigator) (winner : nat) (env : Env) :
  runDemo true navigator winner env =
  match load_and_search winner (configured navigator env)
          ([SetHTML "Initializing...<br>"] ++ webgpu_events navigator)%list with
  | (log, Ok _) => Ok (configured navigator env, log)
  | (log, Throw error) =>
      Ok (configured navigator env,
          (log ++ [ConsoleError "An error occurred:" error;
                   AppendHTML ("An error occurred: " ++ message error ++ "<br>")])%list)
  end.
Proof.
  unfold runDemo, configured, webgpu_events, webgpu_available, checkWebGPUSupport.
  destruct (gpu navigator) as [[[a |] | e] |]; reflexivity.
Qed.

(** [runDemo] throws only when the page has no 'output' element: a failed
    WebGPU check, model load or embedding call is caught.  It leaves
    [allowLocalModels] off and [useWebGPU] on exactly when an adapter was
    obtained, with 1 thread, the proxy on and the browser cache off in that
    case, and otherwise with 4 threads and the proxy and cache settings it
    found. *)
Theorem runDemo_environment (has_output : bool) (navigator : Navigator) (winner : nat)
    (env : Env) :
  if has_output then
    exists env' log,
      runDemo has_output navigator winner env = Ok (env', log) /\
      allowLocalModels env' = Flag false /\
      useWebGPU env' = Flag (webgpu_available navigator) /\
      if webgpu_available navigator
      then numThreads env' = Count 1 /\ proxy env' = Flag true /\
           useBrowserCache env' = Flag false
      else numThreads env' = Count 4 /\ proxy env' = proxy env /\
           useBrowserCache env' = useBrowserCache env
  else runDemo has_output navigator winner env = Throw TypeError.
Proof.
  destruct has_output; [| reflexivity].
  rewrite runDemo_unfold.
  exists (configured navigator env).
  destruct (load_and_search _ _ _) as [log [u | e]]; eexists;
    (split; [reflexivity |]); unfold configured;
    destruct (webgpu_available navigator); cbn; auto.
Qed.

Lemma providers_succeed_load getT getI (items : list CatalogItem) :
  forallb (providers_succeed getT getI) items = true ->
  exists res, processSearchableItems getT getI items = Some res.
Proof.
  unfold processSearchableItems.
  induction items as [| item items IH]; intros H; cbn [forallb map Promise_all] in *.
  - eauto.
  - apply andb_true_iff in H as [H1 H2].
    destruct (IH H2) as [res E].
    destruct (providers_succeed_embed _ _ _ H1) as (v & Ev & _).
    rewrite Ev, E. eauto.
Qed.

Lemma await_items_succeeds (winner : nat) (models : Models) :
  items_embed models = true ->
  exists item_embeds,
    await_items winner models searchableItems = Ok item_embeds /\
    processSearchableItems
      (getTextEmbedding (tokenizer models) (text_model models))
      (getImageEmbedding (processor models) (vision_model models))
      searchableItems = Some item_embeds /\
    forallb well_formed item_embeds = true /\
    List.length item_embeds = List.length searchableItems.
Proof.
  unfold items_embed. intros H.
  set (getT := getTextEmbedding (tokenizer models) (text_model models)) in *.
  set (getI := getImageEmbedding (processor models) (vision_model models)) in *.
  assert (P : forallb (providers_succeed getT getI) searchableItems = true).
  { apply forallb_forall. rewrite forallb_forall in H. intros item Hin.
    specialize (H item Hin). apply andb_true_iff in H as [H1 H2].
    unfold providers_succeed. rewrite H1, H2.
    destruct (truthy (text item)), (truthy (image item)); reflexivity. }
  destruct (providers_succeed_load getT getI searchableItems P) as [res E].
  exists res. unfold await_items. fold getT getI.
  unfold processSearchableItems in E. rewrite E.
  split; [reflexivity |]. split; [exact E |]. split.
  - apply (embedded_items_well_formed getT getI searchableItems res E). reflexivity.
  - apply Promise_all_Forall2, Forall2_length in E. rewrite length_map in E. congruence.
Qed.

(** The loop over the queries writes one page per query for as long as
    the queries can be embedded. *)
Lemma search_queries_app (models : Models) (item_embeds : list item_value) :
  forallb well_formed item_embeds = true ->
  List.length item_embeds = List.length searchableItems ->
  forall (before rest : list string) (log : list event),
    queries_embed models before = true ->
    exists htmls,
      search_queries models item_embeds (before ++ rest)%list log
      = search_queries models item_embeds rest (log ++ map AppendHTML htmls)%list /\
      Forall2 (shown_for models item_embeds) before htmls.
Proof.
  intros Hwf Hlen. unfold queries_embed.
  induction before as [| query qs IH]; intros rest log H; cbn [forallb] in H.
  - exists []. cbn. rewrite app_nil_r. split; [reflexivity | constructor].
  - apply andb_true_iff in H as [Hq Hqs]. cbn [search_queries app].
    destruct (getTextEmbedding (tokenizer models) (text_model models) query)
      as [query_embed |] eqn:Eq; [| discriminate].
    destruct (well_formed_similarities cos_sim query_embed item_embeds Hwf) as [sims Es].
    assert (Em : findBestMatches cos_sim query_embed item_embeds (Some 3%Z)
                 = Ok (slice (ranking sims) 0 3)).
    { rewrite findBestMatches_unfold, Es. reflexivity. }
    rewrite Em.
    destruct (generateResultHTML_succeeds query searchableItems (slice (ranking sims) 0 3))
      as [html Eh].
    { rewrite <- Hlen. eapply findBestMatches_index_range. exact Em. }
    rewrite Eh.
    destruct (IH rest (log ++ [AppendHTML html])%list Hqs) as (htmls & Er & F).
    exists (html :: htmls). split.
    + rewrite Er, <- app_assoc. reflexivity.
    + constructor; [| exact F].
      exists query_embed, (slice (ranking sims) 0 3). repeat split; auto.
      rewrite slice_from_0, length_firstn, ranking_length.
      rewrite (map_throwing_length _ _ _ Es), Hlen. reflexivity.
Qed.

(** When the models load and every embedding call succeeds, [runDemo]
    reports no error: after the lines of the set-up it writes the two
    headings and then, for each of the three queries in order, the page of
    its three best matches among the five embedded items. *)
Theorem runDemo_shows_results (navigator : Navigator) (winner : nat) (env : Env)
    (models : Models) :
  loadModels (configured navigator env) = Ok models ->
  embeddings_succeed models = true ->
  exists item_embeds htmls,
    processSearchableItems
      (getTextEmbedding (tokenizer models) (text_model models))
      (getImageEmbedding (processor models) (vision_model models))
      searchableItems = Some item_embeds /\
    Forall2 (shown_for models item_embeds) queries htmls /\
    runDemo true navigator winner env =
      Ok (configured navigator env,
          ([SetHTML "Initializing...<br>"] ++ webgpu_events navigator
           ++ [AppendHTML "Models loaded. Processing...<br>";
               AppendHTML "<h2>Text Query to Mixed Item Matching</h2>"]
           ++ map AppendHTML htmls)%list).
Proof.
  intros Hload Hemb. unfold embeddings_succeed in Hemb.
  apply andb_true_iff in Hemb as [Hitems Hq].
  destruct (await_items_succeeds winner models Hitems)
    as (item_embeds & Ea & Ep & Hwf & Hlen).
  destruct (search_queries_app models item_embeds Hwf Hlen queries []
              ((([SetHTML "Initializing...<br>"] ++ webgpu_events navigator)
                ++ [AppendHTML "Models loaded. Processing...<br>"])
               ++ [AppendHTML "<h2>Text Query to Mixed Item Matching</h2>"])%list Hq)
    as (htmls & Es & F).
  rewrite app_nil_r in Es.
  exists item_embeds, htmls. split; [exact Ep |]. split; [exact F |].
  rewrite runDemo_unfold. unfold load_and_search. rewrite Hload, Ea, Es.
  cbn [search_queries]. do 2 f_equal. rewrite <- !app_assoc. reflexivity.
Qed.

(** When the embedding of a query throws, [runDemo] keeps the pages of the
    queries before it, reports that exception as the last thing it writes,
    and shows nothing for the queries after it. *)
Theorem runDemo_keeps_earlier_results (navigator : Navigator) (winner : nat) (env : Env)
    (models : Models) (before after : list string) (failing : string) (e : exn) :
  loadModels (configured navigator env) = Ok models ->
  items_embed models = true ->
  queries = (before ++ failing :: after)%list ->
  queries_embed models before = true ->
  getTextEmbedding (tokenizer models) (text_model models) failing = Throw e ->
  exists item_embeds htmls,
    Forall2 (shown_for models item_embeds) before htmls /\
    runDemo true navigator winner env =
      Ok (configured navigator env,
          ([SetHTML "Initializing...<br>"] ++ webgpu_events navigator
           ++ [AppendHTML "Models loaded. Processing...<br>";
               AppendHTML "<h2>Text Query to Mixed Item Matching</h2>"]
           ++ map AppendHTML htmls
           ++ [ConsoleError "An error occurred:" e;
               AppendHTML ("An error occurred: " ++ message e ++ "<br>")])%list).
Proof.
  intros Hload Hitems Hsplit Hbefore Hfail.
  destruct (await_items_succeeds winner models Hitems)
    as (item_embeds & Ea & Ep & Hwf & Hlen).
  destruct (search_queries_app models item_embeds Hwf Hlen before (failing :: after)
              ((([SetHTML "Initializing...<br>"] ++ webgpu_events navigator)
                ++ [AppendHTML "Models loaded. Processing...<br>"])
               ++ [AppendHTML "<h2>Text Query to Mixed Item Matching</h2>"])%list Hbefore)
    as (htmls & Es & F).
  exists item_embeds, htmls. split; [exact F |].
  rewrite runDemo_unfold. unfold load_and_search. rewrite Hload, Ea, Hsplit, Es.
  cbn [search_queries]. rewrite Hfail.
  do 2 f_equal. rewrite <- !app_assoc. reflexivity.
Qed.

Lemma rejections_In {A : Type} (l : list (result A)) (e : exn) :
  In e (rejections l) <-> In (Throw e) l.
Proof.
  unfold rejections. rewrite in_flat_map. split.
  - intros ([a | e'] & Hin & He); [destruct He |].
    destruct He as [<- | []]. exact Hin.
  - intros H. exists (Throw e). split; [exact H | now left].
Qed.

Lemma nth_or_first_In {A : Type} (n : nat) (l : list A) (d : A) :
  l <> [] -> In (nth n l (hd d l)) l.
Proof.
  intros Hl. destruct (Nat.lt_ge_cases n (List.length l)) as [H | H].
  - now apply nth_In.
  - rewrite nth_overflow by exact H. destruct l; [congruence | now left].
Qed.

(** A failed load is reported and ends the demo.  When a model cannot be
    loaded, [runDemo] writes the error after the set-up lines and nothing
    else.  When the catalog cannot be embedded, it writes 'Models loaded',
    then the error, which is the exception of one of the items whose
    embedding threw; no query is shown in either case. *)
Theorem runDemo_reports_failed_load (navigator : Navigator) (winner : nat) (env : Env) :
  (forall e, loadModels (configured navigator env) = Throw e ->
     runDemo true navigator winner env =
       Ok (configured navigator env,
           ([SetHTML "Initializing...<br>"] ++ webgpu_events navigator
            ++ [ConsoleError "An error occurred:" e;
                AppendHTML ("An error occurred: " ++ message e ++ "<br>")])%list)) /\
  (forall models, loadModels (configured navigator env) = Ok models ->
     processSearchableItems
       (getTextEmbedding (tokenizer models) (text_model models))
       (getImageEmbedding (processor models) (vision_model models))
       searchableItems = None ->
     exists item e,
       In item searchableItems /\
       embed_item (getTextEmbedding (tokenizer models) (text_model models))
                  (getImageEmbedding (processor models) (vision_model models)) item
       = Throw e /\
       runDemo true navigator winner env =
         Ok (configured navigator env,
             ([SetHTML "Initializing...<br>"] ++ webgpu_events navigator
              ++ [AppendHTML "Models loaded. Processing...<br>";
                  ConsoleError "An error occurred:" e;
                  AppendHTML ("An error occurred: " ++ message e ++ "<br>")])%list)).
Proof.
  split.
  - intros e H. rewrite runDemo_unfold. unfold load_and_search. rewrite H.
    rewrite <- app_assoc. reflexivity.
  - intros models Hload Hnone.
    set (getT := getTextEmbedding (tokenizer models) (text_model models)) in *.
    set (getI := getImageEmbedding (processor models) (vision_model models)) in *.
    set (reasons := rejections (map (embed_item getT getI) searchableItems)).
    assert (Hne : reasons <> []).
    { unfold processSearchableItems in Hnone.
      apply Promise_all_None, Exists_exists in Hnone as (r & Hin & e & ->).
      apply rejections_In in Hin. fold reasons in Hin. intros E. now rewrite E in Hin. }
    pose proof (nth_or_first_In winner reasons TypeError Hne) as Hin.
    set (e := nth winner reasons (hd TypeError reasons)) in *.
    apply rejections_In, in_map_iff in Hin as (item & He & Hitem).
    exists item, e. split; [exact Hitem |]. split; [exact He |].
    rewrite runDemo_unfold. unfold load_and_search, await_items. rewrite Hload.
    fold getT getI. unfold processSearchableItems in Hnone. rewrite Hnone.
    fold reasons. fold e. rewrite <- !app_assoc. reflexivity.
Qed.

End Page.

(** ** Part XIV. More of the demo catalog

    The theorems of Parts XI to XIII applied to the instance of Part IV,
    and to a page whose loaders always succeed and whose text pipeline
    fails on a given query. *)

Module DemoPage.

Definition top_3 : list Match :=
  Eval vm_compute in
    match findBestMatches Demo.cosine Demo.east Demo.catalog None with
    | Ok ms => ms
    | Throw _ => []
    end.

Definition Number_toString (x : number) : string := "1e+21".
Definition TypeError_message : string := "Cannot read properties of undefined".

Definition load (env : Env) (modelName : string) (quantized : bool) : result unit := Ok tt.

(** A text pipeline that fails on the query [failing]. *)
Definition getTextEmbedding (failing : string) (tokenizer text_model : unit) (text : string)
    : result Tensor :=
  if (text =? failing)%string then Throw (ExternalError "inference failed")
  else if (String.length text <? 20)%nat then Ok Demo.east
  else Ok Demo.north_east.

Definition getImageEmbedding (processor vision_model : unit) (imageUrl : string)
    : result Tensor :=
  Ok Demo.north.

Definition models : Models unit unit unit unit :=
  {| tokenizer := tt; text_model := tt; processor := tt; vision_model := tt |}.

Definition navigator : Navigator := {| gpu := Some (Ok None) |}.

Definition env : Env :=
  {| numThreads := Unset; proxy := Unset; useBrowserCache := Flag true;
     useWebGPU := Unset; allowLocalModels := Flag true |}.

(** [runDemo] on this page, with the text pipeline failing on [failing]. *)
Definition run (failing : string) : result (Env * list event) :=
  runDemo Demo.cosine Number_toString TypeError_message unit unit unit unit
    load load load load (getTextEmbedding failing) getImageEmbedding
    true navigator 0 env.

Definition page : string :=
  Eval vm_compute in
    match generateResultHTML Number_toString "A pet" Demo.items top_3 with
    | Ok html => html
    | Throw _ => ""
    end.

End DemoPage.

Lemma matches_carry_scores_demo :
  exists item, nth_error Demo.catalog (index (hd (make_match zero 0%nat) DemoPage.top_3))
               = Some item /\
    item_similarity Demo.cosine Demo.east item
    = Ok (similarity (hd (make_match zero 0%nat) DemoPage.top_3)).
Proof.
  apply (matches_carry_scores Demo.cosine Demo.east Demo.catalog None DemoPage.top_3);
    [vm_compute; reflexivity | left; reflexivity].
Defined.

Lemma ranking_unique_demo :
  [make_match 1%float 1; make_match 0.5%float 0] = ranking [0.5%float; 1%float].
Proof.
  apply (ranking_unique [0.5%float; 1%float] [make_match 1%float 1; make_match 0.5%float 0]).
  - repeat constructor.
  - apply perm_swap.
  - repeat constructor.
Defined.

Lemma returned_indices_demo :
  NoDup (map index DemoPage.top_3) /\
  Forall (fun m => (index m < List.length Demo.catalog)%nat) DemoPage.top_3 /\
  ((Z.of_nat (List.length Demo.catalog) <= 3)%Z ->
   Permutation (map index DemoPage.top_3) (seq 0 (List.length Demo.catalog))).
Proof.
  apply (returned_indices Demo.cosine Demo.east Demo.catalog None DemoPage.top_3).
  vm_compute. reflexivity.
Defined.

Lemma returned_matches_are_the_best_demo :
  exists ms, findBestMatches Demo.cosine Demo.east Demo.catalog (Some 2%Z) = Ok ms /\
    forall (j : nat) (item : item_value) (s : number) (m : Match),
      nth_error Demo.catalog j = Some item ->
      item_similarity Demo.cosine Demo.east item = Ok s ->
      ~ In j (map index ms) -> In m ms ->
      (s <=? similarity m)%float = true.
Proof.
  apply (returned_matches_are_the_best Demo.cosine Demo.east Demo.catalog (Some 2%Z));
    [reflexivity | vm_compute; reflexivity].
Defined.

Lemma fewer_matches_are_a_prefix_demo :
  findBestMatches Demo.cosine Demo.east Demo.catalog (Some 1%Z)
  = Ok (firstn (Z.to_nat 1) DemoPage.top_3).
Proof.
  apply (fewer_matches_are_a_prefix Demo.cosine Demo.east Demo.catalog 1 3 DemoPage.top_3);
    [lia | vm_compute; reflexivity].
Defined.

Lemma loaded_catalog_can_be_ranked_demo :
  exists ms, findBestMatches Demo.cosine Demo.east Demo.catalog (Some 3%Z) = Ok ms /\
    List.length ms = Nat.min (Z.to_nat 3) (List.length Demo.items).
Proof.
  apply (loaded_catalog_can_be_ranked Demo.embedText Demo.embedImage Demo.cosine Demo.east
           Demo.items Demo.catalog 3); [lia | reflexivity | reflexivity].
Defined.

Lemma returned_array_is_new_demo :
  exists l, VRef 14%nat = VRef l /\ (List.length DemoStore.heap <= l)%nat /\
            nth_error DemoStore.heap l = None.
Proof.
  apply (returned_array_is_new Demo.cosine DemoStore.heap DemoStore.query DemoStore.catalog
           None (VRef 14%nat)).
  vm_compute. reflexivity.
Defined.

Lemma matches_can_be_presented_demo :
  exists html,
    generateResultHTML DemoPage.Number_toString "A pet" Demo.items DemoPage.top_3 = Ok html.
Proof.
  apply (matches_can_be_presented Demo.cosine DemoPage.Number_toString Demo.east
           Demo.catalog None DemoPage.top_3 "A pet" Demo.items);
    [vm_compute; reflexivity | reflexivity].
Defined.

Lemma generateResultHTML_layout_demo :
  exists blocks,
    DemoPage.page
    = "<h3>Query: " ++ quote ++ "A pet" ++ quote ++ "</h3>" ++ join blocks
      ++ "<hr class=" ++ quote ++ "query-separator" ++ quote ++ ">" /\
    List.length blocks = List.length DemoPage.top_3 /\
    forall (i : nat) (m : Match), nth_error DemoPage.top_3 i = Some m ->
      exists block, nth_error blocks i = Some block /\
        result_block DemoPage.Number_toString Demo.items (List.length DemoPage.top_3) m i
        = Ok block.
Proof.
  apply (generateResultHTML_layout DemoPage.Number_toString "A pet" Demo.items
           DemoPage.top_3 DemoPage.page).
  vm_compute. reflexivity.
Defined.

Lemma runDemo_shows_results_demo :
  exists item_embeds htmls,
    processSearchableItems (DemoPage.getTextEmbedding "" tt tt)
      (DemoPage.getImageEmbedding tt tt) searchableItems = Some item_embeds /\
    Forall2 (shown_for Demo.cosine DemoPage.Number_toString unit unit unit unit
               (DemoPage.getTextEmbedding "") DemoPage.models item_embeds)
            queries htmls /\
    DemoPage.run "" =
      Ok (configured DemoPage.navigator DemoPage.env,
          ([SetHTML "Initializing...<br>"]
           ++ webgpu_events DemoPage.TypeError_message DemoPage.navigator
           ++ [AppendHTML "Models loaded. Processing...<br>";
               AppendHTML "<h2>Text Query to Mixed Item Matching</h2>"]
           ++ map AppendHTML htmls)%list).
Proof.
  apply (runDemo_shows_results Demo.cosine DemoPage.Number_toString
           DemoPage.TypeError_message unit unit unit unit
           DemoPage.load DemoPage.load DemoPage.load DemoPage.load
           (DemoPage.getTextEmbedding "") DemoPage.getImageEmbedding
           DemoPage.navigator 0 DemoPage.env DemoPage.models); reflexivity.
Defined.

Lemma runDemo_keeps_earlier_results_demo :
  exists item_embeds htmls,
    Forall2 (shown_for Demo.cosine DemoPage.Number_toString unit unit unit unit
               (DemoPage.getTextEmbedding "A bird in nature") DemoPage.models item_embeds)
            ["A pet animal"] htmls /\
    DemoPage.run "A bird in nature" =
      Ok (configured DemoPage.navigator DemoPage.env,
          ([SetHTML "Initializing...<br>"]
           ++ webgpu_events DemoPage.TypeError_message DemoPage.navigator
           ++ [AppendHTML "Models loaded. Processing...<br>";
               AppendHTML "<h2>Text Query to Mixed Item Matching</h2>"]
           ++ map AppendHTML htmls
           ++ [ConsoleError "An error occurred:" (ExternalError "inference failed");
               AppendHTML ("An error occurred: "
                           ++ message DemoPage.TypeError_message
                                (ExternalError "inference failed") ++ "<br>")])%list).
Proof.
  apply (runDemo_keeps_earlier_results Demo.cosine DemoPage.Number_toString
           DemoPage.TypeError_message unit unit unit unit
           DemoPage.load DemoPage.load DemoPage.load DemoPage.load
           (DemoPage.getTextEmbedding "A bird in nature") DemoPage.getImageEmbedding
           DemoPage.navigator 0 DemoPage.env DemoPage.models
           ["A pet animal"] ["An aquatic creature"] "A bird in nature"
           (ExternalError "inference failed")); reflexivity.
Defined.
